(** * Frequency tagging (Analysis notebook): spectrum, baseline subtraction,
      smoothing and nearest-bin lookup

    The two code cells that follow the heading "Frequency Tagging" of
    [Analysis-checkpoint.ipynb] are embedded here as functions over
    two-dimensional arrays of rationals.  Amplitudes and frequencies are
    Python/NumPy floats in the notebook; the embedding computes with exact
    rationals ([Q], compared with [==]), so rounding and overflow are outside
    the model, and statements are about what the cells compute up to
    rounding.  The sampling rate is the exception: it is taken with the
    infinities and NaN of a Python float where the statements of "Run FFT"
    are followed one by one ([run_fft]).  NumPy's indexing rules (negative
    indices wrap once, anything further raises [IndexError]) and Python's
    division by zero are written out. *)

From Stdlib Require Import QArith Qabs Lia Lqa.
From stdpp Require Import base list strings.

Open Scope Q_scope.

(** ** Exceptions and results *)

(** [InvalidInputError] is the error kind the specification names; no
    statement of the notebook raises it.  The other three are the Python
    exceptions the cells can raise. *)
Inductive exn : Set :=
  | ZeroDivisionError
  | IndexError
  | ValueError
  | InvalidInputError.

Inductive result (A : Type) : Type :=
  | Ok (a : A)
  | Raise (e : exn).
Arguments Ok {A} a.
Arguments Raise {A} e.

Definition bind {A B} (m : result A) (k : A -> result B) : result B :=
  match m with
  | Ok a => k a
  | Raise e => Raise e
  end.

Notation "'let*' x ':=' m 'in' k" := (bind m (fun x => k))
  (at level 10, x name, m at level 100, k at level 200, only parsing).

Fixpoint mapR {A B} (f : A -> result B) (xs : list A) : result (list B) :=
  match xs with
  | [] => Ok []
  | x :: xs' => let* y := f x in let* ys := mapR f xs' in Ok (y :: ys)
  end.

(** [for x in xs: a = f a x], stopping at the first exception. *)
Fixpoint foldR {A B} (f : A -> B -> result A) (xs : list B) (a : A) : result A :=
  match xs with
  | [] => Ok a
  | x :: xs' => let* a' := f a x in foldR f xs' a'
  end.

(** ** Arrays *)

(** A two-dimensional array: [shape = (length rows, ncols)].  The column
    count is kept beside the rows because an array may have no row. *)
Record ndarray2 : Type := Array2 { ncols : nat; rows : list (list Q) }.

Definition nrows (a : ndarray2) : nat := length (rows a).

Definition wf (a : ndarray2) : Prop :=
  Forall (fun r => length r = ncols a) (rows a).

(** [a[c, i]] for indices in range. *)
Definition entry (a : ndarray2) (c i : nat) : option Q :=
  match rows a !! c with
  | Some r => r !! i
  | None => None
  end.

Definition Qlt_bool (x y : Q) : bool := negb (Qle_bool y x).

Definition Qsum (xs : list Q) : Q := foldr Qplus 0 xs.

(** [np.mean] of a one-dimensional selection.  (Of an empty selection NumPy
    gives NaN with a warning; no loop of the notebook averages an empty
    selection, see [inds_to_avg_nonempty].) *)
Definition mean (xs : list Q) : Q := Qsum xs / inject_Z (Z.of_nat (length xs)).

(** [np.mean(a, axis=1)]: one mean per row. *)
Definition mean_axis1 (a : ndarray2) : list Q := map mean (rows a).

(** An integer index into an axis of length [n]: [0 <= k < n] is itself,
    [-n <= k < 0] counts from the end, anything else is out of bounds. *)
Definition norm_index (n : nat) (k : Z) : result nat :=
  if ((0 <=? k)%Z && (k <? Z.of_nat n)%Z)%bool then Ok (Z.to_nat k)
  else if ((- Z.of_nat n <=? k)%Z && (k <? 0)%Z)%bool then Ok (Z.to_nat (k + Z.of_nat n))
  else Raise IndexError.

(** [a[:, idx]] for an integer index array [idx].  An index out of bounds
    raises [IndexError].  (On an array without rows the selection is empty,
    and NumPy releases up to 1.23 only warned about such an index there;
    statements about this error are made for arrays with at least one
    row.) *)
Definition take_cols (a : ndarray2) (idx : list Z) : result ndarray2 :=
  let* js := mapR (norm_index (ncols a)) idx in
  Ok (Array2 (length js) (map (fun r => map (fun j => nth j r 0) js) (rows a))).

(** [a[:, i]] for one integer [i]. *)
Definition get_col (a : ndarray2) (i : Z) : result (list Q) :=
  let* j := norm_index (ncols a) i in
  Ok (map (fun r => nth j r 0) (rows a)).

(** [a[:, i] = col], where [col] has one value per row. *)
Definition set_col (a : ndarray2) (i : Z) (col : list Q) : result ndarray2 :=
  let* j := norm_index (ncols a) i in
  Ok (Array2 (ncols a) (zip_with (fun r v => <[j := v]> r) (rows a) col)).

(** [np.empty_like(a)] and [np.zeros(shape)].  The contents of an empty
    array are unspecified; zero stands for them, and
    [subtract_loop_any_buffer] shows that they never reach a result. *)
Definition zeros (n m : nat) : ndarray2 := Array2 m (replicate n (replicate m 0)).
Definition empty_like (a : ndarray2) : ndarray2 := zeros (nrows a) (ncols a).

(** [a[a < 0] = 0]. *)
Definition clip (x : Q) : Q := if Qlt_bool x 0 then 0 else x.
Definition clip_negative (a : ndarray2) : ndarray2 :=
  Array2 (ncols a) (map (map clip) (rows a)).

(** [idx[(idx >= 0) & (idx < n)]]. *)
Definition in_range (n : nat) (k : Z) : bool :=
  ((0 <=? k)%Z && (k <? Z.of_nat n)%Z)%bool.
Definition keep_in_range (n : nat) (idx : list Z) : list Z :=
  base.filter (fun k => in_range n k = true) idx.

(** ** Baseline subtraction *)

Definition reference_bins : list Z := [-5; -4; -3; 3; 4; 5]%Z.

(** [reference_inds] as the loop body computes it for bin [i]. *)
Definition reference_inds (bins : list Z) (n : nat) (i : nat) : list Z :=
  let reference_inds := map (fun b => (b + Z.of_nat i)%Z) bins in
  keep_in_range n reference_inds.

(** One iteration of the first loop.  As in the notebook, [reference_inds]
    is computed and the mean is then taken over [amp[:, reference_bins]]. *)
Definition subtract_body (reference_bins : list Z) (amp sub_amp : ndarray2) (i : nat)
  : result ndarray2 :=
  let reference_inds := reference_inds reference_bins (ncols amp) i in
  let* col := get_col amp (Z.of_nat i) in
  let* ref := take_cols amp reference_bins in
  set_col sub_amp (Z.of_nat i) (zip_with Qminus col (mean_axis1 ref)).

Definition subtract_loop (reference_bins : list Z) (amp sub_amp : ndarray2)
  : result ndarray2 :=
  foldR (subtract_body reference_bins amp) (seq 0 (ncols sub_amp)) sub_amp.

Definition baselineSubtract_with (reference_bins : list Z) (amp : ndarray2)
  : result ndarray2 :=
  let sub_amp := empty_like amp in
  let* sub_amp := subtract_loop reference_bins amp sub_amp in
  Ok (clip_negative sub_amp).

Definition baselineSubtract : ndarray2 -> result ndarray2 :=
  baselineSubtract_with reference_bins.

(** ** Smoothing *)

Definition bins_to_avg : list Z := [-1; 0; 1]%Z.

Definition smooth_body (bins_to_avg : list Z) (sub_amp norm_amp : ndarray2) (i : nat)
  : result ndarray2 :=
  let inds_to_avg := map (fun b => (b + Z.of_nat i)%Z) bins_to_avg in
  let inds_to_avg := keep_in_range (ncols sub_amp) inds_to_avg in
  let* sel := take_cols sub_amp inds_to_avg in
  set_col norm_amp (Z.of_nat i) (mean_axis1 sel).

(** The second loop; [nfreqs] is [len(freqs)]. *)
Definition smooth_with (bins_to_avg : list Z) (nfreqs : nat) (sub_amp : ndarray2)
  : result ndarray2 :=
  let norm_amp := zeros (nrows sub_amp) nfreqs in
  foldR (smooth_body bins_to_avg sub_amp) (seq 0 (ncols sub_amp)) norm_amp.

(** In the notebook [freqs] and [amp] are cut by the same mask, so
    [len(freqs)] is the column count of [sub_amp]. *)
Definition smooth (sub_amp : ndarray2) : result ndarray2 :=
  smooth_with bins_to_avg (ncols sub_amp) sub_amp.

(** ** Spectrum *)

(** Python's [x / y] on floats. *)
Definition py_div (x y : Q) : result Q :=
  if Qeq_bool y 0 then Raise ZeroDivisionError else Ok (x / y).

(** [np.arange(a, b)] on integers. *)
Definition arange (a b : Z) : list Z :=
  map (fun k => (a + Z.of_nat k)%Z) (seq 0 (Z.to_nat (b - a))).

(** [np.fft.fftfreq(n, d)]: [val = 1.0 / (n * d)], then the integers
    [0 .. (n-1)//2] followed by [-(n//2) .. -1], each times [val]. *)
Definition fftfreq (n : nat) (d : Q) : result (list Q) :=
  let* val := py_div 1 (inject_Z (Z.of_nat n) * d) in
  let N := ((Z.of_nat n - 1) / 2 + 1)%Z in
  let p1 := arange 0 N in
  let p2 := arange (- (Z.of_nat n / 2)) 0 in
  Ok (map (fun k => inject_Z k * val) (p1 ++ p2)).

(** [xs[mask]] for a boolean mask of the same length. *)
Fixpoint compress {A} (mask : list bool) (xs : list A) : list A :=
  match mask, xs with
  | b :: mask', x :: xs' => if b then x :: compress mask' xs' else compress mask' xs'
  | _, _ => []
  end.

(** [a[:, mask]]; NumPy refuses a mask whose length is not the axis length. *)
Definition mask_cols (a : ndarray2) (mask : list bool) : result ndarray2 :=
  if Nat.eqb (length mask) (ncols a)
  then Ok (Array2 (length (compress mask mask)) (map (compress mask) (rows a)))
  else Raise IndexError.

Section Spectrum.

(** [np.abs(np.fft.fft(row, n))] for one channel: the magnitudes of the
    [n]-point discrete Fourier transform.  They are irrational in general
    and come from the library; what the cell relies on is that an
    [n]-point transform has [n] bins. *)
Variable fft_abs : nat -> list Q -> list Q.

(** [np.abs(np.fft.fft(data, n=n, axis=1))]. *)
Definition abs_fft (data : ndarray2) (n : nat) : result ndarray2 :=
  if Nat.eqb n 0 then Raise ValueError
  else Ok (Array2 n (map (fft_abs n) (rows data))).

(** The lines "FFT Settings" and "Run FFT". *)
Definition computeSpectrum (data : ndarray2) (sampling_rate : Q)
  : result (list Q * ndarray2) :=
  let nfreqs := ncols data in
  let* d := py_div 1 sampling_rate in
  let* freqs := fftfreq nfreqs d in
  let* amp := abs_fft data nfreqs in
  let* amp := mask_cols amp (map (Qle_bool 0) freqs) in
  let freqs := compress (map (Qle_bool 0) freqs) freqs in
  Ok (freqs, amp).

End Spectrum.

(** ** The statements "Run FFT", one by one

    [computeSpectrum] gives what the statements compute from a finite
    sampling rate.  Here they are followed in the order in which Python runs
    them, over the two variables they bind and the arrays NumPy builds on
    the way, so that it can be said what an exception leaves behind.
    [data], [nfreqs] and [sampling_rate] are set by the lines "FFT Settings"
    and are the inputs. *)

(** A Python float, as [erp1.info['sfreq']] is: the finite values are
    rationals, the infinities and NaN are values of their own. *)
Inductive pyfloat : Type :=
  | Finite (q : Q)
  | Infinite (negative : bool)
  | NotANumber.

(** Python's [1 / y] and [1.0 / y]: a zero divisor raises, the reciprocal
    of an infinity is zero, that of NaN is NaN. *)
Definition py_reciprocal (y : pyfloat) : result pyfloat :=
  match y with
  | Finite q => let* r := py_div 1 q in Ok (Finite r)
  | Infinite _ => Ok (Finite 0)
  | NotANumber => Ok NotANumber
  end.

(** Python's [n * d] for the integer [n >= 0] and the float [d]. *)
Definition py_int_times (n : nat) (d : pyfloat) : pyfloat :=
  match d with
  | Finite q => Finite (inject_Z (Z.of_nat n) * q)
  | Infinite negative => if Nat.eqb n 0 then NotANumber else Infinite negative
  | NotANumber => NotANumber
  end.

(** One entry of [results * val]: the integer bin [k] times the float. *)
Definition scale_bin (val : pyfloat) (k : Z) : pyfloat :=
  match val with
  | Finite v => Finite (inject_Z k * v)
  | Infinite negative =>
      if (k =? 0)%Z then NotANumber else Infinite (xorb negative (k <? 0)%Z)
  | NotANumber => NotANumber
  end.

(** [x >= 0]; a comparison with NaN is false. *)
Definition float_nonneg (x : pyfloat) : bool :=
  match x with
  | Finite q => Qle_bool 0 q
  | Infinite negative => negb negative
  | NotANumber => false
  end.

(** The operations of NumPy that return a new array. *)
Inductive numpy_call : Type :=
  | np_empty
  | np_arange
  | np_multiply
  | np_fft
  | np_abs
  | np_greater_equal
  | np_getitem.

(** The kernel: the variables [freqs] and [amp], unbound or bound, and the
    arrays built so far, oldest first. *)
Record kernel : Type := Kernel {
  var_freqs : option (list pyfloat);
  var_amp : option ndarray2;
  built : list numpy_call
}.

(** A statement changes the kernel and may raise; what it did before it
    raised stays done. *)
Definition stmt (A : Type) : Type := kernel -> result A * kernel.

Definition lift {A} (r : result A) : stmt A := fun k => (r, k).

Definition and_then {A B} (m : stmt A) (f : A -> stmt B) : stmt B :=
  fun k =>
    match m k with
    | (Ok a, k') => f a k'
    | (Raise e, k') => (Raise e, k')
    end.

Notation "'let!' x ':=' m 'in' f" := (and_then m (fun x => f))
  (at level 10, x name, m at level 100, f at level 200, only parsing).

Definition builds (c : numpy_call) : stmt unit :=
  fun k => (Ok tt, Kernel (var_freqs k) (var_amp k) (built k ++ [c])).

Definition assign_freqs (v : list pyfloat) : stmt unit :=
  fun k => (Ok tt, Kernel (Some v) (var_amp k) (built k)).

Definition assign_amp (v : ndarray2) : stmt unit :=
  fun k => (Ok tt, Kernel (var_freqs k) (Some v) (built k)).

(** [np.fft.fftfreq(n, d)] as the library runs it: [val] first, then
    [results = empty(n, int)], the two [arange], and [results * val]. *)
Definition fftfreq_run (n : nat) (d : pyfloat) : stmt (list pyfloat) :=
  let! val := lift (py_reciprocal (py_int_times n d)) in
  let! _ := builds np_empty in
  let N := ((Z.of_nat n - 1) / 2 + 1)%Z in
  let! _ := builds np_arange in
  let p1 := arange 0 N in
  let! _ := builds np_arange in
  let p2 := arange (- (Z.of_nat n / 2)) 0 in
  let! _ := builds np_multiply in
  lift (Ok (map (scale_bin val) (p1 ++ p2))).

Section RunFFT.

Variable fft_abs : nat -> list Q -> list Q.

(** The four statements under "Run FFT". *)
Definition run_fft (data : ndarray2) (sampling_rate : pyfloat) : stmt unit :=
  let nfreqs := ncols data in
  let! d := lift (py_reciprocal sampling_rate) in
  let! freqs := fftfreq_run nfreqs d in
  let! _ := assign_freqs freqs in
  let! amp := lift (abs_fft fft_abs data nfreqs) in
  let! _ := builds np_fft in
  let! _ := builds np_abs in
  let! _ := assign_amp amp in
  let! _ := builds np_greater_equal in
  let! amp := lift (mask_cols amp (map float_nonneg freqs)) in
  let! _ := builds np_getitem in
  let! _ := assign_amp amp in
  let! _ := builds np_greater_equal in
  let! _ := builds np_getitem in
  assign_freqs (compress (map float_nonneg freqs) freqs).

End RunFFT.

(** The arrays built by a run that reaches its end. *)
Definition run_fft_calls : list numpy_call :=
  [np_empty; np_arange; np_arange; np_multiply; np_fft; np_abs;
   np_greater_equal; np_getitem; np_greater_equal; np_getitem].

(** A fresh kernel. *)
Definition fresh_kernel : kernel := Kernel None None [].

Definition zero_rate (sampling_rate : pyfloat) : Prop :=
  match sampling_rate with
  | Finite q => q == 0
  | _ => False
  end.

Definition infinite_rate (sampling_rate : pyfloat) : Prop :=
  match sampling_rate with
  | Infinite _ => True
  | _ => False
  end.

(** The reciprocal of a finite float overflows when its magnitude is at
    most [2^-1024] (and not zero); such rates are set aside, since finite
    values are rationals here and do not overflow. *)
Definition reciprocal_in_range (sampling_rate : pyfloat) : Prop :=
  match sampling_rate with
  | Finite q => q == 0 \/ (1 # 2) ^ 1024 < Qabs q
  | _ => True
  end.

(** ** Amplitudes at target frequencies *)

(** [np.argmin]: index of the first occurrence of the minimum. *)
Fixpoint argmin_from (xs : list Q) (i : nat) (best : Q) (ibest : nat) : nat :=
  match xs with
  | [] => ibest
  | x :: xs' =>
      if Qlt_bool x best then argmin_from xs' (S i) x i
      else argmin_from xs' (S i) best ibest
  end.

Definition argmin (xs : list Q) : result nat :=
  match xs with
  | [] => Raise ValueError
  | x :: xs' => Ok (argmin_from xs' 1 x 0)
  end.

(** [np.abs(freqs - f)]. *)
Definition distances (freqs : list Q) (f : Q) : list Q :=
  map (fun x => Qabs (x - f)) freqs.

Definition target_body (freqs : list Q) (amp : ndarray2)
    (st : list Q * ndarray2) (it : nat * Q) : result (list Q * ndarray2) :=
  let '(closest_freqs, target_amp) := st in
  let '(i, f) := it in
  let* ind := argmin (distances freqs f) in
  let closest_freqs := <[i := nth ind freqs 0]> closest_freqs in
  let* col := get_col amp (Z.of_nat ind) in
  let* target_amp := set_col target_amp (Z.of_nat i) col in
  Ok (closest_freqs, target_amp).

Definition nearestBinAmplitudes (freqs : list Q) (amp : ndarray2) (target_freqs : list Q)
  : result (list Q * ndarray2) :=
  let closest_freqs := replicate (length target_freqs) 0 in
  let target_amp := zeros (nrows amp) (length target_freqs) in
  foldR (target_body freqs amp) (imap pair target_freqs) (closest_freqs, target_amp).

(** ** The notebook session *)

(** The variables the second cell leaves behind for the third. *)
Record session : Type := Session {
  freqs : list Q;
  amp : ndarray2;
  norm_amp : ndarray2
}.

Section Cells.

Variable fft_abs : nat -> list Q -> list Q.

(** The FFT cell, from [data] and [sampling_rate] to [del sub_amp]. *)
Definition fft_cell (data : ndarray2) (sampling_rate : Q) : result session :=
  let* fa := computeSpectrum fft_abs data sampling_rate in
  let* sub_amp := baselineSubtract (snd fa) in
  let* norm_amp := smooth_with bins_to_avg (length (fst fa)) sub_amp in
  Ok (Session (fst fa) (snd fa) norm_amp).

End Cells.

(** The target-frequency cell: it reads [freqs] and [amp]. *)
Definition target_cell (s : session) (target_freqs : list Q)
  : result (list Q * ndarray2) :=
  nearestBinAmplitudes (freqs s) (amp s) target_freqs.

(** ** Predicates on arrays, and the two readings of the baseline *)

Definition nonneg (a : ndarray2) : Prop :=
  Forall (Forall (fun x => 0 <= x)) (rows a).

Definition all_zero (a : ndarray2) : Prop :=
  Forall (Forall (fun x => x == 0)) (rows a).

Definition array_eq (a b : ndarray2) : Prop :=
  ncols a = ncols b /\ Forall2 (Forall2 Qeq) (rows a) (rows b).

(** What the loop subtracts from every bin of channel [r] when the array
    has [n >= 6] bins: the mean over the bins that the index array
    [[-5, -4, -3, 3, 4, 5]] itself denotes. *)
Definition fixed_baseline (n : nat) (r : list Q) : Q :=
  mean [nth (n - 5) r 0; nth (n - 4) r 0; nth (n - 3) r 0;
        nth 3 r 0; nth 4 r 0; nth 5 r 0].

(** Following the specification's words: the local baseline at bin [i] is
    the mean over the bins [i + referenceOffsets] that fall in [[0, n)]. *)
Definition shifted_baseline (bins : list Z) (n : nat) (r : list Q) (i : nat) : Q :=
  mean (map (fun j => nth (Z.to_nat j) r 0) (reference_inds bins n i)).

(** ** Closed forms of the loops *)

(** Row [b] of a buffer after the columns [k, k+1, ...] have been written
    with the values [g x r] for the loop items [x] of [xs]. *)
Definition fill_row {B : Type} (g : B -> list Q -> Q) (k : nat) (xs : list B)
    (r b : list Q) : list Q :=
  take k b ++ map (fun x => g x r) xs ++ drop (k + length xs) b.

(** The value the first loop leaves at bin [i] of a channel [r], before
    clipping, when the index array denotes the columns [js]. *)
Definition subtracted (js : list nat) (i : nat) (r : list Q) : Q :=
  nth i r 0 - mean (map (fun j => nth j r 0) js).

(** The columns averaged for bin [i]. *)
Definition inds_to_avg (bins : list Z) (n i : nat) : list nat :=
  map Z.to_nat (keep_in_range n (map (fun b => (b + Z.of_nat i)%Z) bins)).

Definition smoothed (bins : list Z) (n i : nat) (r : list Q) : Q :=
  mean (map (fun j => nth j r 0) (inds_to_avg bins n i)).

(** [is_first_min xs r]: [r] indexes a least element of [xs] and every
    element before it is strictly greater. *)
Definition is_first_min (xs : list Q) (r : nat) : Prop :=
  exists m, xs !! r = Some m
    /\ (forall j y, xs !! j = Some y -> m <= y)
    /\ (forall j y, (j < r)%nat -> xs !! j = Some y -> m < y).

(** The bin chosen for target [f]. *)
Definition nearest (freqs : list Q) (f : Q) : nat :=
  match argmin (distances freqs f) with
  | Ok ind => ind
  | Raise _ => 0%nat
  end.

(** Target [f] passes through the loop body without an exception. *)
Definition target_ok (freqs : list Q) (amp : ndarray2) (f : Q) : Prop :=
  freqs <> [] /\ (nearest freqs f < ncols amp)%nat.

(** ** The frequency axis *)

(** The integer bin numbers of [np.fft.fftfreq], in storage order. *)
Definition fft_bins (n : nat) : list Z :=
  arange 0 ((Z.of_nat n - 1) / 2 + 1) ++ arange (- (Z.of_nat n / 2)) 0.

(** The spacing [val] between neighbouring frequencies. *)
Definition bin_width (n : nat) (sampling_rate : Q) : Q :=
  1 / (inject_Z (Z.of_nat n) * (1 / sampling_rate)).

(** The unmasked frequency axis and the mask [freqs >= 0]. *)
Definition all_freqs (n : nat) (sampling_rate : Q) : list Q :=
  map (fun k => inject_Z k * bin_width n sampling_rate) (fft_bins n).

Definition nonneg_mask (n : nat) (sampling_rate : Q) : list bool :=
  map (Qle_bool 0) (all_freqs n sampling_rate).

(** ** Concrete inputs *)

(** One channel, seven bins, a peak of 10 at bin 3. *)
Definition amp_scenario : ndarray2 := Array2 7 [[0; 0; 0; 10; 0; 0; 0]].
Definition offsets_scenario : list Z := [-3; -2; -1; 1; 2; 3]%Z.

(** One channel, twelve bins, a peak of 12 at bin 8. *)
Definition row_peak : list Q := [0; 0; 0; 0; 0; 0; 0; 0; 12; 0; 0; 0].
Definition amp_peak : ndarray2 := Array2 12 [row_peak].

(** One channel, three bins, all zero. *)
Definition amp_narrow_zero : ndarray2 := Array2 3 [[0; 0; 0]].

(** Two channels, six bins. *)
Definition amp_ramp : ndarray2 :=
  Array2 6 [[1; 2; 3; 4; 5; 6]; [6; 5; 4; 3; 2; 1]].

(** One channel, three bins, non-uniform. *)
Definition sub_spike : ndarray2 := Array2 3 [[0; 3; 0]].

(** The magnitude spectrum of an impulse: when the first sample is the
    only non-zero one, every bin of the transform has magnitude [|x_0|].
    It instantiates [fft_abs] on such signals. *)
Definition impulse_fft_abs (n : nat) (row : list Q) : list Q :=
  replicate n (Qabs (hd 0 row)).

Definition impulse2 : ndarray2 := Array2 2 [[1; 0]].
Definition impulse12 : ndarray2 :=
  Array2 12 [[3; 0; 0; 0; 0; 0; 0; 0; 0; 0; 0; 0]].

(** The first loop's result on [amp_ramp]. *)
Definition sub_ramp : ndarray2 :=
  Eval vm_compute in
    match baselineSubtract amp_ramp with
    | Ok sub => sub
    | Raise _ => amp_ramp
    end.

(** A frequency axis of six bins and three targets: one midway between
    two bins, one on a bin, one beyond the axis. *)
Definition freqs_example : list Q := [0; 1 / 2; 1; 3 / 2; 2; 5 / 2].
Definition targets_example : list Q := [3 / 4; 2; 7].

(** The session left by the FFT cell on a twelve-sample impulse sampled at
    12 Hz: six bins at 0..5 Hz, a flat raw spectrum of 3, and a normalised
    spectrum that is zero throughout. *)
Definition session_impulse : session :=
  Eval vm_compute in
    match fft_cell impulse_fft_abs impulse12 12 with
    | Ok s => s
    | Raise _ => Session [] impulse12 impulse12
    end.

Definition targets_impulse : list Q := [2; 7 / 2].

(** ** Further inputs and predicates *)

(** The second loop's result on [sub_spike]. *)
Definition norm_spike : ndarray2 :=
  Eval vm_compute in
    match smooth sub_spike with
    | Ok norm_amp => norm_amp
    | Raise _ => sub_spike
    end.

(** A strictly increasing axis. *)
Definition increasing (xs : list Q) : Prop :=
  forall i j x y, (i < j)%nat -> xs !! i = Some x -> xs !! j = Some y -> x < y.

(** ** Re-coding events (the cell "Reading Event Codes")

    [events] is MNE's event array, one row [sample, previous value, code]
    per trigger, of dtype [int64].  The files are read by pandas; the
    embedding starts from the frames that [pd.read_csv] returned. *)

(** The values of NumPy's [int64], and the cast that an assignment into an
    [int64] array applies to a wider integer: the low 64 bits, read as a
    signed number. *)
Definition int64 (z : Z) : Prop := (- 2 ^ 63 <= z < 2 ^ 63)%Z.

Definition to_int64 (z : Z) : Z := ((z + 2 ^ 63) mod 2 ^ 64 - 2 ^ 63)%Z.

Record event : Type := Event { sample : Z; prior : Z; code : Z }.

(** A data frame of integers: [fcols] columns, one list per row.  pandas
    gives a file of integers the dtype [int64] when they all fit
    ([frames_int64] below), and [np.concatenate] keeps it.  Larger numbers,
    decimals or text make pandas choose another dtype ([uint64], [float64],
    [object]), for which the assignment to [events] wraps, truncates or
    raises; the statements about this cell are made for [int64] frames. *)
Record frame : Type := Frame { fcols : nat; frows : list (list Z) }.

Definition frame_wf (f : frame) : Prop :=
  Forall (fun r => length r = fcols f) (frows f).

(** [events[events[:, 2] == 1]]. *)
Definition select_trigger (events : list event) : list event :=
  base.filter (fun e => code e = 1%Z) events.

(** [np.concatenate(frames)]: at least one array, all with the same number
    of columns. *)
Definition concatenate (frames : list frame) : result frame :=
  match frames with
  | [] => Raise ValueError
  | f :: rest =>
      if forallb (fun g => Nat.eqb (fcols g) (fcols f)) rest
      then Ok (Frame (fcols f) (concat (map frows frames)))
      else Raise ValueError
  end.

(** [a.flatten()], row by row. *)
Definition flatten (f : frame) : list Z := concat (frows f).

(** [events[:, 2] = evcodes]: the codes are assigned one to one, a single
    code is broadcast to every row, and any other length is refused.  What
    is stored is the code as an [int64]. *)
Definition set_codes (events : list event) (evcodes : list Z) : result (list event) :=
  if Nat.eqb (length evcodes) (length events)
  then Ok (zip_with (fun e c => Event (sample e) (prior e) (to_int64 c)) events evcodes)
  else if Nat.eqb (length evcodes) 1
  then Ok (map (fun e => Event (sample e) (prior e) (to_int64 (hd 0%Z evcodes))) events)
  else Raise ValueError.

(** The cell, from the selection of trigger code 1 to the assignment. *)
Definition recode_events (events : list event) (frames : list frame)
  : result (list event) :=
  let events := select_trigger events in
  let* evcodes := concatenate frames in
  let evcodes := flatten evcodes in
  set_codes events evcodes.

(** All codes of the frames, in file order. *)
Definition all_codes (frames : list frame) : list Z :=
  concat (map (fun f => concat (frows f)) frames).

(** Frames of dtype [int64]: every code fits. *)
Definition frames_int64 (frames : list frame) : Prop :=
  Forall int64 (all_codes frames).

(** Five triggers, three of them with code 1, and two code files. *)
Definition events_example : list event :=
  [Event 100 0 1; Event 220 0 4; Event 340 0 1; Event 460 0 1; Event 580 0 2]%Z.

Definition frames_example : list frame :=
  [Frame 1 [[7]; [9]]; Frame 1 [[5]]]%Z.

(** ** Regions of interest (the cell "Creating Regions of Interest")

    The weight matrix is a float array whose rows are divided by their own
    sum, and the sum is zero when no channel of a region is found: NumPy
    then writes NaN (with a warning) and goes on.  A float here is therefore
    a rational or NaN.  A zero divisor under a non-zero value would be an
    infinity; the rows divided in this cell hold zeros and ones only, so a
    zero sum means a zero row ([zero_sum_zero_row]), and the case does not
    arise. *)

Inductive fl : Type :=
  | Fin (q : Q)
  | NaN.

Definition fadd (x y : fl) : fl :=
  match x, y with
  | Fin a, Fin b => Fin (a + b)
  | _, _ => NaN
  end.

Definition fmul (x y : fl) : fl :=
  match x, y with
  | Fin a, Fin b => Fin (a * b)
  | _, _ => NaN
  end.

Definition fdiv (x y : fl) : fl :=
  match x, y with
  | Fin a, Fin b => if Qeq_bool b 0 then NaN else Fin (a / b)
  | _, _ => NaN
  end.

Definition fsum (xs : list fl) : fl := foldr fadd (Fin 0) xs.

(** A two-dimensional float array. *)
Record flarray : Type := FlArray { fl_ncols : nat; fl_rows : list (list fl) }.

(** What the cell is given: the channel names of [eeg] and, by its class,
    the data that [eeg.get_data()] returns (channels x times for a
    recording, one such array per epoch for epochs). *)
Inductive eeg_kind : Type :=
  | BaseRaw (data : ndarray2)
  | BaseEpochs (data : list ndarray2)
  | OtherObject.

Record eeg_object : Type := EEG { ch_names : list string; kind : eeg_kind }.

(** What the cell hands to [mne.io.RawArray] or [mne.EpochsArray], with the
    names of the new channels. *)
Inductive roi_data : Type :=
  | RawArray (data : flarray) (roi_names : list string)
  | EpochsArray (data : list flarray) (roi_names : list string).

(** [a[i, sel] = 1] for an integer array [sel]. *)
Definition set_ones (a : flarray) (i : nat) (sel : list nat) : result flarray :=
  if forallb (fun j => Nat.ltb j (fl_ncols a)) sel
  then Ok (FlArray (fl_ncols a)
             (alter (fun row => foldl (fun r j => <[j := Fin 1]> r) row sel)
                    i (fl_rows a)))
  else Raise IndexError.

(** [a[i, :] /= a[i, :].sum()]. *)
Definition divide_by_sum (a : flarray) (i : nat) : flarray :=
  FlArray (fl_ncols a)
    (alter (fun row => map (fun x => fdiv x (fsum row)) row) i (fl_rows a)).

(** [np.dot(a, b)] for [a] of shape (R, C) and [b] of shape (C, T). *)
Definition column (b : ndarray2) (t : nat) : list fl :=
  map (fun r => Fin (nth t r 0)) (rows b).

Definition dot (a : flarray) (b : ndarray2) : result flarray :=
  if Nat.eqb (fl_ncols a) (nrows b)
  then Ok (FlArray (ncols b)
             (map (fun row => map (fun t => fsum (zip_with fmul row (column b t)))
                                  (seq 0 (ncols b)))
                  (fl_rows a)))
  else Raise ValueError.

Section Rois.

(** [mne.pick_channels(ch_names, include=...)]: the indices, within
    [ch_names], of the channels picked. *)
Variable pick_channels : list string -> list string -> list nat.

(** One iteration of the loop over [enumerate(rois)]; [picked] collects
    what the loop stores back into [rois]. *)
Definition roi_body (names : list string)
    (st : list (string * list nat) * flarray) (it : nat * (string * list string))
  : result (list (string * list nat) * flarray) :=
  let '(picked, proj_vec) := st in
  let '(i, (roi, channels)) := it in
  let sel := pick_channels names channels in
  let* proj_vec := set_ones proj_vec i sel in
  let proj_vec := divide_by_sum proj_vec i in
  Ok (picked ++ [(roi, sel)], proj_vec).

(** The weight matrix, with the channel indices of every region. *)
Definition build_proj_vec (names : list string) (rois : list (string * list string))
  : result (list (string * list nat) * flarray) :=
  let proj_vec :=
    FlArray (length names) (replicate (length rois) (replicate (length names) (Fin 0))) in
  foldR (roi_body names) (imap pair rois) ([], proj_vec).

(** The whole cell. *)
Definition rois_cell (eeg : eeg_object) (rois : list (string * list string))
  : result roi_data :=
  let* st := build_proj_vec (ch_names eeg) rois in
  let proj_vec := snd st in
  let roi_names := map fst (fst st) in
  match kind eeg with
  | BaseRaw data =>
      let* d := dot proj_vec data in
      Ok (RawArray d roi_names)
  | BaseEpochs data =>
      let* ds := mapR (dot proj_vec) data in
      Ok (EpochsArray ds roi_names)
  | OtherObject => Raise ValueError
  end.

End Rois.

(** The indices of the channels of [names] that occur in [include], in the
    order of [names]; every channel when [include] is empty.  (What
    [mne.pick_channels] computes for a recording with distinct channel
    names in the releases of MNE that the notebook was written for.) *)
Fixpoint pick_from (k : nat) (names include : list string) : list nat :=
  match names with
  | [] => []
  | name :: rest =>
      if bool_decide (include = [] \/ name ∈ include)
      then k :: pick_from (S k) rest include
      else pick_from (S k) rest include
  end.

Definition pick_by_name (names include : list string) : list nat :=
  pick_from 0 names include.

(** Four channels and two regions; one channel of the second region is
    not in the recording. *)
Definition eeg_example : eeg_object :=
  EEG ["E1"; "E2"; "E3"; "E4"]
      (BaseRaw (Array2 3 [[1; 2; 3]; [3; 4; 5]; [10; 20; 30]; [5; 6; 7]])).

Definition rois_example : list (string * list string) :=
  [("Fz", ["E1"; "E2"; "E4"]); ("Cz", ["E3"; "E9"])].

(** The row of ones written for a region whose channels have the indices
    [sel], over rationals and as floats, and the row after the division. *)
Definition ones_row (C : nat) (sel : list nat) : list Q :=
  foldl (fun r j => <[j := 1]> r) (replicate C 0) sel.

Definition weights (C : nat) (sel : list nat) : list fl :=
  let row := foldl (fun r j => <[j := Fin 1]> r) (replicate C (Fin 0)) sel in
  map (fun x => fdiv x (fsum row)) row.

(** [d[i, t]]. *)
Definition fl_entry (d : flarray) (i t : nat) : option fl :=
  match fl_rows d !! i with
  | Some r => r !! t
  | None => None
  end.

(** Every region's channel indices lie within the recording. *)
Definition picks_in_range (pick : list string -> list string -> list nat)
    (names : list string) (rois : list (string * list string)) : Prop :=
  Forall (fun rc => Forall (fun j => (j < length names)%nat) (pick names (snd rc))) rois.

(** The same recording with a region none of whose channels it has. *)
Definition rois_missing : list (string * list string) :=
  [("Fz", ["E1"; "E2"]); ("Oz", ["E70"; "E75"])].

(** ** Basic facts about the result monad and the array primitives *)

Lemma bind_Ok {A B} (m : result A) (k : A -> result B) (b : B) :
  bind m k = Ok b -> exists a, m = Ok a /\ k a = Ok b.
Proof. destruct m as [a|e]; simpl; [eauto | discriminate]. Qed.

Lemma norm_index_nat (n i : nat) : (i < n)%nat -> norm_index n (Z.of_nat i) = Ok i.
Proof.
  intros Hi. unfold norm_index.
  replace (0 <=? Z.of_nat i)%Z with true by (symmetry; apply Z.leb_le; lia).
  replace (Z.of_nat i <? Z.of_nat n)%Z with true by (symmetry; apply Z.ltb_lt; lia).
  simpl. by rewrite Nat2Z.id.
Qed.

Lemma get_col_nat (a : ndarray2) (i : nat) :
  (i < ncols a)%nat -> get_col a (Z.of_nat i) = Ok (map (fun r => nth i r 0) (rows a)).
Proof. intros Hi. unfold get_col. by rewrite norm_index_nat. Qed.

Lemma set_col_nat (a : ndarray2) (i : nat) (col : list Q) :
  (i < ncols a)%nat ->
  set_col a (Z.of_nat i) col
  = Ok (Array2 (ncols a) (zip_with (fun r v => <[i := v]> r) (rows a) col)).
Proof. intros Hi. unfold set_col. by rewrite norm_index_nat. Qed.

Lemma take_cols_Ok (a : ndarray2) (idx : list Z) (js : list nat) :
  mapR (norm_index (ncols a)) idx = Ok js ->
  take_cols a idx
  = Ok (Array2 (length js) (map (fun r => map (fun j => nth j r 0) js) (rows a))).
Proof. intros E. unfold take_cols. by rewrite E. Qed.

Lemma zip_with_map_map {A B C D} (f : B -> C -> D) (g : A -> B) (h : A -> C) (l : list A) :
  zip_with f (map g l) (map h l) = map (fun x => f (g x) (h x)) l.
Proof. induction l as [|x l IH]; simpl; [reflexivity | by rewrite IH]. Qed.

(** ** Filling an array column by column

    Every loop of the notebook has the same shape: iteration number [j]
    writes column [k + j] of a buffer, and the value written into row [r]
    is a function [g x r] of the loop item [x] and the matching row of a
    source array. *)

Section Fill.

Context {B : Type} (g : B -> list Q -> Q).

Lemma fill_row_step (k : nat) (x : B) (xs : list B) (r b : list Q) :
  (k < length b)%nat ->
  fill_row g (S k) xs r (<[k := g x r]> b) = fill_row g k (x :: xs) r b.
Proof.
  intros Hk. unfold fill_row.
  rewrite (take_S_r _ k (g x r)) by (by apply list_lookup_insert_eq).
  rewrite take_insert_ge by lia.
  rewrite drop_insert_lt by lia.
  rewrite <- app_assoc.
  replace (k + length (x :: xs))%nat with (S k + length xs)%nat
    by (simpl; lia).
  reflexivity.
Qed.

Lemma fill_row_all (xs : list B) (r b : list Q) :
  length b = length xs -> fill_row g 0 xs r b = map (fun x => g x r) xs.
Proof.
  intros H. unfold fill_row. simpl.
  rewrite drop_ge by lia. by rewrite app_nil_r.
Qed.

Lemma fill_rows_step (n k : nat) (x : B) (xs : list B) (src buf : list (list Q)) :
  (k < n)%nat ->
  Forall (fun b => length b = n) buf ->
  zip_with (fill_row g (S k) xs) src
    (zip_with (fun b v => <[k := v]> b) buf (map (g x) src))
  = zip_with (fill_row g k (x :: xs)) src buf.
Proof.
  intros Hk. revert buf.
  induction src as [|r src IH]; intros [|b buf] Hbuf; simpl; try reflexivity.
  inversion Hbuf as [|? ? Hb Hbuf']; subst.
  rewrite fill_row_step by lia. f_equal. by apply IH.
Qed.

Lemma fill_rows_all (xs : list B) (src buf : list (list Q)) :
  length buf = length src ->
  Forall (fun b => length b = length xs) buf ->
  zip_with (fill_row g 0 xs) src buf = map (fun r => map (fun x => g x r) xs) src.
Proof.
  revert buf. induction src as [|r src IH]; intros [|b buf] Hlen Hbuf;
    simpl in *; try reflexivity; try discriminate.
  inversion Hbuf as [|? ? Hb Hbuf']; subst.
  rewrite fill_row_all by assumption. f_equal. apply IH; [lia | assumption].
Qed.

Lemma fill_row_nil (k : nat) (r b : list Q) : fill_row g k [] r b = b.
Proof. unfold fill_row. simpl. rewrite Nat.add_0_r. apply take_drop. Qed.

Lemma fill_rows_nil (k : nat) (src buf : list (list Q)) :
  length buf = length src -> zip_with (fill_row g k []) src buf = buf.
Proof.
  revert buf. induction src as [|r src IH]; intros [|b buf] Hlen;
    simpl in *; try reflexivity; try discriminate.
  rewrite fill_row_nil. f_equal. apply IH. lia.
Qed.

Lemma insert_cols_shape (n k : nat) (buf : list (list Q)) (col : list Q) :
  length col = length buf ->
  Forall (fun b => length b = n) buf ->
  length (zip_with (fun b v => <[k := v]> b) buf col) = length buf
  /\ Forall (fun b => length b = n) (zip_with (fun b v => <[k := v]> b) buf col).
Proof.
  revert col. induction buf as [|b buf IH]; intros [|v col] Hlen Hbuf;
    simpl in *; try discriminate; [by split|].
  inversion Hbuf as [|? ? Hb Hbuf']; subst.
  destruct (IH col) as [IH1 IH2]; [lia | assumption |].
  split; [by rewrite IH1 |].
  constructor; [by rewrite length_insert | assumption].
Qed.

(** The loop over items [xs] whose [j]-th item writes column [k + j]. *)
Lemma foldR_fill (idx : B -> nat) (src : list (list Q)) (n : nat)
    (body : ndarray2 -> B -> result ndarray2) :
  forall (xs : list B) (k : nat) (buf : list (list Q)),
    (k + length xs <= n)%nat ->
    (forall j x, xs !! j = Some x -> idx x = (k + j)%nat) ->
    (forall st x, x ∈ xs -> ncols st = n ->
       body st x = set_col st (Z.of_nat (idx x)) (map (g x) src)) ->
    length buf = length src ->
    Forall (fun b => length b = n) buf ->
    foldR body xs (Array2 n buf) = Ok (Array2 n (zip_with (fill_row g k xs) src buf)).
Proof.
  induction xs as [|x xs IH]; intros k buf Hk Hidx Hbody Hlen Hbuf.
  - simpl. by rewrite fill_rows_nil.
  - simpl in Hk. simpl.
    rewrite Hbody by (left || reflexivity).
    assert (Hx : idx x = k) by (rewrite (Hidx 0%nat x eq_refl); lia).
    rewrite Hx, set_col_nat by (simpl; lia). simpl.
    destruct (insert_cols_shape n k buf (map (g x) src)) as [S1 S2];
      [by rewrite length_map | assumption |].
    rewrite (IH (S k)); try assumption; try lia.
    + by rewrite (fill_rows_step n) by (assumption || lia).
    + intros j y Hy. rewrite (Hidx (S j) y Hy). lia.
    + intros st y Hy Hst. apply Hbody; [by right | assumption].
Qed.

End Fill.

(** ** The baseline loop in closed form *)

Lemma lookup_map {A B} (f : A -> B) (l : list A) (i : nat) :
  map f l !! i = f <$> (l !! i).
Proof. exact (list_lookup_fmap f l i). Qed.

Lemma norm_index_neg (n k : nat) :
  (0 < k <= n)%nat -> norm_index n (- Z.of_nat k) = Ok (n - k)%nat.
Proof.
  intros Hk. unfold norm_index.
  replace (0 <=? - Z.of_nat k)%Z with false by (symmetry; apply Z.leb_gt; lia).
  replace (- Z.of_nat n <=? - Z.of_nat k)%Z with true by (symmetry; apply Z.leb_le; lia).
  replace (- Z.of_nat k <? 0)%Z with true by (symmetry; apply Z.ltb_lt; lia).
  simpl. f_equal. lia.
Qed.

Lemma subtract_body_Ok (bins : list Z) (amp st : ndarray2) (js : list nat) (i : nat) :
  mapR (norm_index (ncols amp)) bins = Ok js ->
  (i < ncols amp)%nat ->
  subtract_body bins amp st i
  = set_col st (Z.of_nat i) (map (subtracted js i) (rows amp)).
Proof.
  intros Hjs Hi. unfold subtract_body.
  rewrite get_col_nat by assumption. simpl.
  rewrite (take_cols_Ok _ _ _ Hjs). simpl.
  unfold mean_axis1. simpl. rewrite map_map.
  by rewrite zip_with_map_map.
Qed.

(** Whatever the buffer holds at the start, the loop overwrites all of it:
    the contents of [np.empty_like] never reach the result. *)
Lemma subtract_loop_any_buffer (bins : list Z) (amp : ndarray2) (js : list nat)
    (buf : list (list Q)) :
  mapR (norm_index (ncols amp)) bins = Ok js ->
  length buf = nrows amp ->
  Forall (fun b => length b = ncols amp) buf ->
  subtract_loop bins amp (Array2 (ncols amp) buf)
  = Ok (Array2 (ncols amp)
         (map (fun r => map (fun i => subtracted js i r) (seq 0 (ncols amp)))
              (rows amp))).
Proof.
  intros Hjs Hlen Hbuf. unfold subtract_loop. simpl ncols.
  rewrite (foldR_fill (fun i r => subtracted js i r) (fun i => i)
             (rows amp) (ncols amp) _ (seq 0 (ncols amp)) 0 buf).
  - rewrite fill_rows_all; [reflexivity | assumption |].
    by rewrite length_seq.
  - rewrite length_seq. lia.
  - intros j x Hx. apply lookup_seq in Hx. lia.
  - intros st x Hx Hst. apply elem_of_seq in Hx.
    apply subtract_body_Ok; [assumption | lia].
  - assumption.
  - assumption.
Qed.

Lemma zeros_shape (n m : nat) :
  length (rows (zeros n m)) = n
  /\ Forall (fun b => length b = m) (rows (zeros n m)).
Proof.
  unfold zeros. simpl. split; [apply length_replicate |].
  apply Forall_replicate, length_replicate.
Qed.

Lemma baselineSubtract_with_Ok (bins : list Z) (amp : ndarray2) (js : list nat) :
  mapR (norm_index (ncols amp)) bins = Ok js ->
  baselineSubtract_with bins amp
  = Ok (Array2 (ncols amp)
         (map (fun r => map (fun i => clip (subtracted js i r)) (seq 0 (ncols amp)))
              (rows amp))).
Proof.
  intros Hjs. unfold baselineSubtract_with, empty_like.
  destruct (zeros_shape (nrows amp) (ncols amp)) as [Z1 Z2].
  change (zeros (nrows amp) (ncols amp))
    with (Array2 (ncols amp) (rows (zeros (nrows amp) (ncols amp)))).
  rewrite (subtract_loop_any_buffer bins amp js) by assumption.
  simpl. unfold clip_negative. simpl. f_equal. f_equal.
  rewrite map_map. apply map_ext. intros r. by rewrite map_map.
Qed.

Lemma baselineSubtract_with_Raise (bins : list Z) (amp : ndarray2) (e : exn) :
  mapR (norm_index (ncols amp)) bins = Raise e ->
  (0 < ncols amp)%nat ->
  baselineSubtract_with bins amp = Raise e.
Proof.
  intros Hjs Hn. unfold baselineSubtract_with, subtract_loop, empty_like.
  simpl ncols. destruct (ncols amp) as [|n] eqn:En; [lia|].
  simpl seq. simpl foldR. unfold subtract_body at 1.
  rewrite get_col_nat by lia. simpl.
  unfold take_cols. rewrite En, Hjs. reflexivity.
Qed.

Lemma reference_bins_index (n : nat) :
  (6 <= n)%nat ->
  mapR (norm_index n) reference_bins
  = Ok [(n - 5)%nat; (n - 4)%nat; (n - 3)%nat; 3%nat; 4%nat; 5%nat].
Proof.
  intros Hn.
  change reference_bins
    with [(- Z.of_nat 5)%Z; (- Z.of_nat 4)%Z; (- Z.of_nat 3)%Z;
          Z.of_nat 3; Z.of_nat 4; Z.of_nat 5].
  cbn [mapR].
  rewrite (norm_index_neg n 5), (norm_index_neg n 4), (norm_index_neg n 3) by lia.
  rewrite (norm_index_nat n 3), (norm_index_nat n 4), (norm_index_nat n 5) by lia.
  reflexivity.
Qed.

Lemma reference_bins_out_of_bounds (n : nat) :
  (n < 6)%nat -> mapR (norm_index n) reference_bins = Raise IndexError.
Proof.
  intros Hn.
  do 6 (destruct n as [|n]; [reflexivity|]). lia.
Qed.

(** With one to five bins the first iteration already fails. *)
Lemma baselineSubtract_narrow_raises (amp : ndarray2) :
  (0 < ncols amp < 6)%nat -> baselineSubtract amp = Raise IndexError.
Proof.
  intros Hn. apply baselineSubtract_with_Raise; [| lia].
  apply reference_bins_out_of_bounds. lia.
Qed.

(** On such an axis some bin has no shifted reference bin in range at
    all, so the mean over the in-range neighbours is not defined there
    either. *)
Lemma narrow_axis_isolated_bin (n : nat) :
  (0 < n < 6)%nat ->
  exists i, (i < n)%nat /\ reference_inds reference_bins n i = [].
Proof.
  intros Hn.
  destruct n as [|[|[|[|[|[|n]]]]]]; try lia.
  - exists 0%nat. split; [lia | reflexivity].
  - exists 0%nat. split; [lia | reflexivity].
  - exists 0%nat. split; [lia | reflexivity].
  - exists 1%nat. split; [lia | reflexivity].
  - exists 2%nat. split; [lia | reflexivity].
Qed.

Lemma entry_closed_form (n : nat) (f : nat -> list Q -> Q) (src : list (list Q))
    (c i : nat) (r : list Q) :
  src !! c = Some r -> (i < n)%nat ->
  entry (Array2 n (map (fun r => map (fun i => f i r) (seq 0 n)) src)) c i
  = Some (f i r).
Proof.
  intros Hr Hi. unfold entry. simpl.
  rewrite lookup_map, Hr. simpl.
  rewrite lookup_map.
  assert (H : seq 0 n !! i = Some i) by (apply lookup_seq; lia).
  by rewrite H.
Qed.

Lemma map_nil_rows {A} (f : A -> list Q) (l : list A) :
  (forall x, f x = []) -> map f l = replicate (length l) [].
Proof.
  intros Hf. induction l as [|x l IH]; simpl; [reflexivity|].
  by rewrite Hf, IH.
Qed.

Lemma map_replicate {A B} (f : A -> B) (n : nat) (x : A) :
  map f (replicate n x) = replicate n (f x).
Proof. induction n as [|n IH]; simpl; [reflexivity | by rewrite IH]. Qed.

(** A successful run always has the closed form, for the columns [js] that
    the index array denotes (for an array without bins the loop does not
    run and [js] is immaterial). *)
Lemma baselineSubtract_with_inv (bins : list Z) (amp sub : ndarray2) :
  baselineSubtract_with bins amp = Ok sub ->
  exists js,
    sub = Array2 (ncols amp)
            (map (fun r => map (fun i => clip (subtracted js i r)) (seq 0 (ncols amp)))
                 (rows amp)).
Proof.
  intros H.
  destruct (mapR (norm_index (ncols amp)) bins) as [js|e] eqn:E.
  - exists js. rewrite (baselineSubtract_with_Ok _ _ _ E) in H. by injection H.
  - destruct (ncols amp) as [|n] eqn:En.
    + exists []. revert H.
      unfold baselineSubtract_with, subtract_loop, empty_like, zeros, clip_negative.
      rewrite En. simpl. intros [= <-]. f_equal.
      rewrite map_replicate. simpl.
      by rewrite (map_nil_rows (fun _ => [])) by reflexivity.
    + rewrite baselineSubtract_with_Raise with (e := e) in H;
        [discriminate | by rewrite En | lia].
Qed.

(** ** The smoothing loop in closed form *)

Lemma keep_in_range_index (n : nat) (l : list Z) :
  mapR (norm_index n) (keep_in_range n l) = Ok (map Z.to_nat (keep_in_range n l)).
Proof.
  unfold keep_in_range. induction l as [|k l IH]; [reflexivity|].
  rewrite filter_cons. destruct (decide (in_range n k = true)) as [Hk|Hk];
    [| exact IH].
  cbn [mapR map]. rewrite IH.
  unfold norm_index. unfold in_range in Hk. by rewrite Hk.
Qed.

Lemma smooth_body_Ok (bins : list Z) (sub_amp st : ndarray2) (i : nat) :
  smooth_body bins sub_amp st i
  = set_col st (Z.of_nat i) (map (smoothed bins (ncols sub_amp) i) (rows sub_amp)).
Proof.
  unfold smooth_body.
  rewrite (take_cols_Ok _ _ _ (keep_in_range_index _ _)). simpl.
  unfold mean_axis1. simpl. by rewrite map_map.
Qed.

Lemma smooth_with_Ok (bins : list Z) (nfreqs : nat) (sub_amp : ndarray2) :
  nfreqs = ncols sub_amp ->
  smooth_with bins nfreqs sub_amp
  = Ok (Array2 (ncols sub_amp)
         (map (fun r => map (fun i => smoothed bins (ncols sub_amp) i r)
                            (seq 0 (ncols sub_amp)))
              (rows sub_amp))).
Proof.
  intros ->. unfold smooth_with.
  destruct (zeros_shape (nrows sub_amp) (ncols sub_amp)) as [Z1 Z2].
  change (zeros (nrows sub_amp) (ncols sub_amp))
    with (Array2 (ncols sub_amp) (rows (zeros (nrows sub_amp) (ncols sub_amp)))).
  rewrite (foldR_fill (fun i r => smoothed bins (ncols sub_amp) i r) (fun i => i)
             (rows sub_amp) (ncols sub_amp) _ (seq 0 (ncols sub_amp)) 0).
  - rewrite fill_rows_all; [reflexivity | assumption |].
    by rewrite length_seq.
  - rewrite length_seq. lia.
  - intros j x Hx. apply lookup_seq in Hx. lia.
  - intros st x Hx Hst. apply smooth_body_Ok.
  - assumption.
  - assumption.
Qed.

Lemma smooth_Ok (sub_amp : ndarray2) :
  smooth sub_amp
  = Ok (Array2 (ncols sub_amp)
         (map (fun r => map (fun i => smoothed bins_to_avg (ncols sub_amp) i r)
                            (seq 0 (ncols sub_amp)))
              (rows sub_amp))).
Proof. by apply smooth_with_Ok. Qed.

(** With the offsets [-1, 0, 1] the bin itself is always among those
    averaged: no mean of the second loop is taken over an empty selection. *)
Lemma inds_to_avg_nonempty (n i : nat) :
  (i < n)%nat -> i ∈ inds_to_avg bins_to_avg n i.
Proof.
  intros Hi. unfold inds_to_avg, bins_to_avg, keep_in_range.
  apply list_elem_of_fmap. exists (Z.of_nat i). split; [by rewrite Nat2Z.id|].
  apply list_elem_of_filter. split.
  - unfold in_range. apply andb_true_intro. split;
      [apply Z.leb_le | apply Z.ltb_lt]; lia.
  - simpl. right. left.
Qed.

(** ** Order facts about means and clipping *)

Lemma Forall_map_intro {A B} (P : B -> Prop) (f : A -> B) (l : list A) :
  (forall x, P (f x)) -> Forall P (map f l).
Proof. intros H. induction l; simpl; constructor; auto. Qed.

Lemma Forall_nth_default {A} (P : A -> Prop) (l : list A) (d : A) (j : nat) :
  Forall P l -> P d -> P (nth j l d).
Proof.
  intros Hl Hd. rewrite nth_lookup.
  destruct (l !! j) as [x|] eqn:E; simpl; [| assumption].
  eapply Forall_lookup in Hl; eauto.
Qed.

Lemma Qsum_nonneg (xs : list Q) : Forall (fun x => 0 <= x) xs -> 0 <= Qsum xs.
Proof.
  induction 1 as [|x xs Hx _ IH]; simpl; [apply Qle_refl|].
  change 0 with (0 + 0). by apply Qplus_le_compat.
Qed.

Lemma Qsum_zero (xs : list Q) : Forall (fun x => x == 0) xs -> Qsum xs == 0.
Proof.
  induction 1 as [|x xs Hx _ IH]; simpl; [reflexivity|].
  rewrite Hx, IH. reflexivity.
Qed.

Lemma mean_nonneg (xs : list Q) : Forall (fun x => 0 <= x) xs -> 0 <= mean xs.
Proof.
  intros H. unfold mean, Qdiv. apply Qmult_le_0_compat.
  - by apply Qsum_nonneg.
  - apply Qinv_le_0_compat.
    change 0 with (inject_Z 0). rewrite <- Zle_Qle. lia.
Qed.

Lemma mean_zero (xs : list Q) : Forall (fun x => x == 0) xs -> mean xs == 0.
Proof.
  intros H. unfold mean, Qdiv. rewrite (Qsum_zero _ H). apply Qmult_0_l.
Qed.

Lemma clip_nonneg (x : Q) : 0 <= clip x.
Proof.
  unfold clip, Qlt_bool. destruct (Qle_bool 0 x) eqn:E; simpl.
  - by apply Qle_bool_iff.
  - apply Qle_refl.
Qed.

Lemma clip_of_nonneg (x : Q) : 0 <= x -> clip x = x.
Proof.
  intros H. unfold clip, Qlt_bool.
  apply Qle_bool_iff in H. by rewrite H.
Qed.

Lemma clip_of_neg (x : Q) : x < 0 -> clip x = 0.
Proof.
  intros H. unfold clip, Qlt_bool.
  destruct (Qle_bool 0 x) eqn:E; [| reflexivity].
  apply Qle_bool_iff in E. exfalso. eapply Qlt_not_le; eauto.
Qed.

Lemma clip_zero (x : Q) : x == 0 -> clip x == 0.
Proof.
  intros H. rewrite clip_of_nonneg; [assumption|]. rewrite H. apply Qle_refl.
Qed.

(** ** [argmin]: first occurrence of the minimum *)

Lemma Qlt_bool_iff (x y : Q) : Qlt_bool x y = true <-> x < y.
Proof.
  unfold Qlt_bool. destruct (Qle_bool y x) eqn:E; simpl; split; intros H.
  - discriminate.
  - apply Qle_bool_iff in E. exfalso. eapply Qlt_not_le; eauto.
  - apply Qnot_le_lt. intros C. apply Qle_bool_iff in C. congruence.
  - reflexivity.
Qed.

Lemma argmin_from_spec (xs : list Q) :
  forall (pre : list Q) (best : Q) (ibest : nat),
    pre !! ibest = Some best ->
    (forall j y, pre !! j = Some y -> best <= y) ->
    (forall j y, (j < ibest)%nat -> pre !! j = Some y -> best < y) ->
    is_first_min (pre ++ xs) (argmin_from xs (length pre) best ibest).
Proof.
  induction xs as [|x xs IH]; intros pre best ibest Hb Hle Hlt.
  - simpl. rewrite app_nil_r. exists best. auto.
  - simpl.
    replace (pre ++ x :: xs) with ((pre ++ [x]) ++ xs) by (by rewrite <- app_assoc).
    replace (S (length pre)) with (length (pre ++ [x]))
      by (rewrite length_app; simpl; lia).
    destruct (Qlt_bool x best) eqn:E.
    + apply Qlt_bool_iff in E. apply IH.
      * rewrite lookup_app_r by lia. by rewrite Nat.sub_diag.
      * intros j y Hy. apply lookup_app_Some in Hy as [Hy | [_ Hy]].
        -- apply Qlt_le_weak. eapply Qlt_le_trans; [exact E | eauto].
        -- destruct (j - length pre)%nat; simpl in Hy; [| discriminate].
           injection Hy as <-. apply Qle_refl.
      * intros j y Hj Hy. rewrite lookup_app_l in Hy by lia.
        eapply Qlt_le_trans; [exact E | eauto].
    + assert (Hx : best <= x).
      { apply Qnot_lt_le. intros C. apply Qlt_bool_iff in C. congruence. }
      apply IH.
      * rewrite lookup_app_l; [assumption |]. by eapply lookup_lt_Some.
      * intros j y Hy. apply lookup_app_Some in Hy as [Hy | [_ Hy]]; [eauto |].
        destruct (j - length pre)%nat; simpl in Hy; [| discriminate].
        by injection Hy as <-.
      * intros j y Hj Hy.
        assert (ibest < length pre)%nat by (by eapply lookup_lt_Some).
        rewrite lookup_app_l in Hy by lia. eauto.
Qed.

Lemma argmin_Ok (xs : list Q) :
  xs <> [] -> exists r, argmin xs = Ok r /\ is_first_min xs r.
Proof.
  destruct xs as [|x xs]; [congruence | intros _].
  exists (argmin_from xs 1 x 0). split; [reflexivity|].
  apply (argmin_from_spec xs [x] x 0).
  - reflexivity.
  - intros [|j] y Hy; simpl in Hy; [| discriminate].
    injection Hy as <-. apply Qle_refl.
  - intros j y Hj. lia.
Qed.

Lemma argmin_inv (xs : list Q) (r : nat) :
  argmin xs = Ok r -> xs <> [] /\ is_first_min xs r.
Proof.
  intros H. assert (Hne : xs <> []) by (intros ->; discriminate).
  split; [assumption|].
  destruct (argmin_Ok xs Hne) as (r' & Hr' & Hmin). congruence.
Qed.

Lemma is_first_min_bound (xs : list Q) (r : nat) :
  is_first_min xs r -> (r < length xs)%nat.
Proof. intros (m & Hm & _). by eapply lookup_lt_Some. Qed.

(** ** The target loop in closed form *)

Lemma norm_index_nat_inv (n i j : nat) :
  norm_index n (Z.of_nat i) = Ok j -> (i < n)%nat.
Proof.
  unfold norm_index.
  replace (0 <=? Z.of_nat i)%Z with true by (symmetry; apply Z.leb_le; lia).
  destruct (Z.of_nat i <? Z.of_nat n)%Z eqn:E; simpl.
  - intros _. apply Z.ltb_lt in E. lia.
  - replace (Z.of_nat i <? 0)%Z with false by (symmetry; apply Z.ltb_ge; lia).
    rewrite andb_false_r. discriminate.
Qed.

Lemma distances_nil (freqs : list Q) (f : Q) : distances freqs f = [] -> freqs = [].
Proof. destruct freqs; [reflexivity | discriminate]. Qed.

Lemma target_body_Ok (freqs : list Q) (amp : ndarray2) (cf : list Q) (ta : ndarray2)
    (i : nat) (f : Q) :
  target_ok freqs amp f ->
  target_body freqs amp (cf, ta) (i, f)
  = (let* ta' := set_col ta (Z.of_nat i)
                   (map (fun r => nth (nearest freqs f) r 0) (rows amp)) in
     Ok (<[i := nth (nearest freqs f) freqs 0]> cf, ta')).
Proof.
  intros [Hne Hind]. unfold target_body, nearest in *.
  destruct (argmin (distances freqs f)) as [ind|e] eqn:E.
  - simpl. by rewrite get_col_nat by assumption.
  - exfalso. destruct (argmin_Ok (distances freqs f)) as (r & Hr & _); [| congruence].
    intros C. by apply distances_nil in C.
Qed.

Lemma target_body_inv (freqs : list Q) (amp : ndarray2) (st st' : list Q * ndarray2)
    (i : nat) (f : Q) :
  target_body freqs amp st (i, f) = Ok st' -> target_ok freqs amp f.
Proof.
  destruct st as [cf ta]. unfold target_body, target_ok, nearest.
  destruct (argmin (distances freqs f)) as [ind|e] eqn:E; [simpl | discriminate].
  intros H. split.
  - apply argmin_inv in E as [Hne _]. intros ->. by apply Hne.
  - unfold get_col in H.
    destruct (norm_index (ncols amp) (Z.of_nat ind)) as [j|e] eqn:Ej;
      [| discriminate].
    by eapply norm_index_nat_inv.
Qed.

Lemma target_loop_inv (freqs : list Q) (amp : ndarray2) (tfs : list Q) :
  forall (h : nat -> nat) (st st' : list Q * ndarray2),
    foldR (target_body freqs amp) (imap (fun j => pair (h j)) tfs) st = Ok st' ->
    Forall (target_ok freqs amp) tfs.
Proof.
  induction tfs as [|f tfs IH]; intros h st st' H; [constructor|].
  simpl in H. apply bind_Ok in H as (st1 & H1 & H2).
  constructor.
  - by eapply target_body_inv.
  - eapply (IH (fun j => h (S j))). exact H2.
Qed.

Lemma target_loop_Ok (freqs : list Q) (amp : ndarray2) (m : nat) :
  forall (tfs : list Q) (k : nat) (cf : list Q) (buf : list (list Q)),
    Forall (target_ok freqs amp) tfs ->
    (k + length tfs <= m)%nat ->
    length cf = m ->
    length buf = nrows amp ->
    Forall (fun b => length b = m) buf ->
    foldR (target_body freqs amp) (imap (fun j => pair (k + j)%nat) tfs)
      (cf, Array2 m buf)
    = Ok (fill_row (fun f _ => nth (nearest freqs f) freqs 0) k tfs [] cf,
          Array2 m (zip_with (fill_row (fun f r => nth (nearest freqs f) r 0) k tfs)
                             (rows amp) buf)).
Proof.
  induction tfs as [|f tfs IH]; intros k cf buf Hok Hk Hcf Hlen Hbuf.
  - simpl. by rewrite fill_row_nil, fill_rows_nil.
  - inversion Hok as [|? ? Hf Hok']; subst. simpl in Hk.
    rewrite imap_cons. cbn [foldR]. rewrite Nat.add_0_r.
    rewrite target_body_Ok by assumption.
    rewrite set_col_nat by (simpl; lia). simpl.
    destruct (insert_cols_shape (length cf) k buf
                (map (fun r => nth (nearest freqs f) r 0) (rows amp))) as [S1 S2];
      [by rewrite length_map | assumption |].
    rewrite (imap_ext _ (fun j => pair (S k + j)%nat))
      by (intros i x _; simpl; f_equal; lia).
    rewrite IH; try assumption.
    + rewrite (fill_row_step (fun f _ => nth (nearest freqs f) freqs 0)) by lia.
      by rewrite (fill_rows_step (fun f r => nth (nearest freqs f) r 0) (length cf))
        by (assumption || lia).
    + lia.
    + by rewrite length_insert.
    + by rewrite S1.
Qed.

Lemma nearestBinAmplitudes_Ok (freqs : list Q) (amp : ndarray2) (tfs : list Q) :
  Forall (target_ok freqs amp) tfs ->
  nearestBinAmplitudes freqs amp tfs
  = Ok (map (fun f => nth (nearest freqs f) freqs 0) tfs,
        Array2 (length tfs)
          (map (fun r => map (fun f => nth (nearest freqs f) r 0) tfs) (rows amp))).
Proof.
  intros Hok. unfold nearestBinAmplitudes.
  destruct (zeros_shape (nrows amp) (length tfs)) as [Z1 Z2].
  change (zeros (nrows amp) (length tfs))
    with (Array2 (length tfs) (rows (zeros (nrows amp) (length tfs)))).
  rewrite (target_loop_Ok freqs amp (length tfs) tfs 0); try assumption.
  - rewrite fill_row_all by (by rewrite length_replicate).
    by rewrite fill_rows_all.
  - lia.
  - apply length_replicate.
Qed.

Lemma nearestBinAmplitudes_inv (freqs : list Q) (amp : ndarray2) (tfs : list Q)
    (res : list Q * ndarray2) :
  nearestBinAmplitudes freqs amp tfs = Ok res ->
  Forall (target_ok freqs amp) tfs.
Proof.
  unfold nearestBinAmplitudes. intros H.
  eapply (target_loop_inv freqs amp tfs (fun j => j)). exact H.
Qed.

(** ** The spectrum *)

Lemma py_div_Ok (x y : Q) : ~ y == 0 -> py_div x y = Ok (x / y).
Proof.
  intros H. unfold py_div. destruct (Qeq_bool y 0) eqn:E; [| reflexivity].
  apply Qeq_bool_iff in E. contradiction.
Qed.

Lemma py_div_Raise (x y : Q) : y == 0 -> py_div x y = Raise ZeroDivisionError.
Proof. intros H. unfold py_div. apply Qeq_bool_iff in H. by rewrite H. Qed.

Lemma length_arange (a b : Z) : length (arange a b) = Z.to_nat (b - a).
Proof. unfold arange. by rewrite length_map, length_seq. Qed.

Lemma length_fft_bins (n : nat) : length (fft_bins n) = n.
Proof.
  unfold fft_bins. rewrite length_app, !length_arange.
  zify. Z.to_euclidean_division_equations. lia.
Qed.

Lemma inject_nat_zero (n : nat) : inject_Z (Z.of_nat n) == 0 -> n = 0%nat.
Proof. unfold Qeq. simpl. lia. Qed.

Lemma step_nonzero (n : nat) (sampling_rate : Q) :
  (0 < n)%nat -> ~ sampling_rate == 0 ->
  ~ inject_Z (Z.of_nat n) * (1 / sampling_rate) == 0.
Proof.
  intros Hn Hs C. apply Qmult_integral in C as [C | C].
  - apply inject_nat_zero in C. lia.
  - assert (H1 : 1 / sampling_rate * sampling_rate == 1) by (by field).
    rewrite C in H1. discriminate H1.
Qed.

Lemma compress_prefix {A} (a b : nat) (xs : list A) :
  compress (replicate a true ++ replicate b false) xs = take a xs.
Proof.
  revert xs. induction a as [|a IH]; intros xs; simpl.
  - rewrite take_0. revert xs. induction b as [|b IHb]; intros [|x xs]; simpl; auto.
  - destruct xs as [|x xs]; simpl; [reflexivity | by rewrite IH].
Qed.

Section SpectrumFacts.

Variable fft_abs : nat -> list Q -> list Q.

Lemma computeSpectrum_Ok (data : ndarray2) (sampling_rate : Q) :
  (0 < ncols data)%nat -> ~ sampling_rate == 0 ->
  let mask := nonneg_mask (ncols data) sampling_rate in
  computeSpectrum fft_abs data sampling_rate
  = Ok (compress mask (all_freqs (ncols data) sampling_rate),
        Array2 (length (compress mask mask))
          (map (compress mask) (map (fft_abs (ncols data)) (rows data)))).
Proof.
  intros Hn Hs mask. unfold computeSpectrum.
  rewrite py_div_Ok by assumption. simpl.
  unfold fftfreq. rewrite py_div_Ok by (by apply step_nonzero). simpl.
  unfold abs_fft. destruct (Nat.eqb_spec (ncols data) 0) as [E|_]; [lia|]. simpl.
  unfold mask_cols. simpl ncols.
  fold (fft_bins (ncols data)). fold (bin_width (ncols data) sampling_rate).
  fold (all_freqs (ncols data) sampling_rate).
  fold (nonneg_mask (ncols data) sampling_rate). fold mask.
  assert (Hlen : length mask = ncols data).
  { unfold mask, nonneg_mask, all_freqs. by rewrite !length_map, length_fft_bins. }
  rewrite Hlen, Nat.eqb_refl. reflexivity.
Qed.

Lemma computeSpectrum_Raise (data : ndarray2) (sampling_rate : Q) :
  ncols data = 0%nat \/ sampling_rate == 0 ->
  computeSpectrum fft_abs data sampling_rate = Raise ZeroDivisionError.
Proof.
  intros H. unfold computeSpectrum.
  destruct (Qeq_bool sampling_rate 0) eqn:E.
  - apply Qeq_bool_iff in E. by rewrite py_div_Raise.
  - apply Qeq_bool_neq in E. rewrite py_div_Ok by assumption. simpl.
    destruct H as [H | H]; [| contradiction].
    unfold fftfreq. rewrite py_div_Raise; [reflexivity|].
    rewrite H. simpl. apply Qmult_0_l.
Qed.

End SpectrumFacts.

Lemma map_const_replicate {A B} (f : A -> B) (c : B) (l : list A) :
  Forall (fun x => f x = c) l -> map f l = replicate (length l) c.
Proof. induction 1 as [|x l Hx _ IH]; simpl; [reflexivity | by rewrite Hx, IH]. Qed.

Lemma bin_width_pos (n : nat) (sampling_rate : Q) :
  (0 < n)%nat -> 0 < sampling_rate -> 0 < bin_width n sampling_rate.
Proof.
  intros Hn Hs. unfold bin_width, Qdiv. rewrite !Qmult_1_l.
  apply Qinv_lt_0_compat. apply Qmult_lt_0_compat.
  - change 0 with (inject_Z 0). rewrite <- Zlt_Qlt. lia.
  - by apply Qinv_lt_0_compat.
Qed.

Lemma half_up (n : nat) :
  (0 < n)%nat -> Z.to_nat ((Z.of_nat n - 1) / 2 + 1 - 0) = S ((n - 1) / 2).
Proof.
  intros Hn. rewrite Z.sub_0_r.
  rewrite Z2Nat.inj_add by (try apply Z.div_pos; lia).
  rewrite Z2Nat.inj_div by lia.
  replace (Z.to_nat (Z.of_nat n - 1)) with (n - 1)%nat by lia.
  simpl. lia.
Qed.

Lemma half_down (n : nat) : Z.to_nat (0 - - (Z.of_nat n / 2)) = (n / 2)%nat.
Proof.
  replace (0 - - (Z.of_nat n / 2))%Z with (Z.of_nat n / 2)%Z by lia.
  rewrite Z2Nat.inj_div by lia. by rewrite Nat2Z.id.
Qed.

Lemma elem_of_arange (a b k : Z) : k ∈ arange a b -> (a <= k < b)%Z.
Proof.
  unfold arange. intros H. apply list_elem_of_fmap in H as (j & -> & Hj).
  apply elem_of_seq in Hj. lia.
Qed.

Lemma nonneg_mask_pos (n : nat) (sampling_rate : Q) :
  (0 < n)%nat -> 0 < sampling_rate ->
  nonneg_mask n sampling_rate
  = replicate (S ((n - 1) / 2)) true ++ replicate (n / 2) false.
Proof.
  intros Hn Hs. pose proof (bin_width_pos n sampling_rate Hn Hs) as Hw.
  unfold nonneg_mask, all_freqs, fft_bins. rewrite !map_app. f_equal.
  - rewrite map_map, (map_const_replicate _ true).
    + by rewrite length_arange, half_up.
    + apply Forall_forall. intros k Hk. apply elem_of_arange in Hk.
      apply Qle_bool_iff. apply Qmult_le_0_compat; [| by apply Qlt_le_weak].
      change 0 with (inject_Z 0). rewrite <- Zle_Qle. lia.
  - rewrite map_map, (map_const_replicate _ false).
    + by rewrite length_arange, half_down.
    + apply Forall_forall. intros k Hk. apply elem_of_arange in Hk.
      destruct (Qle_bool 0 (inject_Z k * bin_width n sampling_rate)) eqn:E;
        [| reflexivity].
      apply Qle_bool_iff in E. exfalso.
      assert (Hk' : inject_Z k < 0)
        by (change 0 with (inject_Z 0); rewrite <- Zlt_Qlt; lia).
      assert (Hneg : inject_Z k * bin_width n sampling_rate < 0) by nra.
      eapply Qlt_not_le; eauto.
Qed.

Section SpectrumShape.

Variable fft_abs : nat -> list Q -> list Q.

(** For a positive sampling rate the retained bins are the first
    [(T - 1) // 2 + 1], at the multiples [0, val, 2 val, ...]. *)
Lemma computeSpectrum_pos (data : ndarray2) (sampling_rate : Q) :
  (0 < ncols data)%nat -> 0 < sampling_rate ->
  let n := ncols data in
  let N := S ((n - 1) / 2) in
  computeSpectrum fft_abs data sampling_rate
  = Ok (map (fun k => inject_Z (Z.of_nat k) * bin_width n sampling_rate) (seq 0 N),
        Array2 N (map (fun r => take N (fft_abs n r)) (rows data))).
Proof.
  intros Hn Hs n N.
  assert (Hs' : ~ sampling_rate == 0) by (intros C; rewrite C in Hs; discriminate Hs).
  rewrite computeSpectrum_Ok by assumption. cbv zeta.
  rewrite nonneg_mask_pos by assumption. fold n. fold N.
  rewrite !compress_prefix. f_equal. f_equal; [| f_equal].
  - unfold all_freqs, fft_bins.
    change (map ?f ?l) with (f <$> l). rewrite <- fmap_take.
    assert (HN : length (arange 0 ((Z.of_nat n - 1) / 2 + 1)) = N).
    { rewrite length_arange. by apply half_up. }
    rewrite <- HN at 1. rewrite take_app_length.
    unfold arange. rewrite <- list_fmap_compose.
    replace (Z.to_nat ((Z.of_nat n - 1) / 2 + 1 - 0)) with N
      by (rewrite <- HN, length_arange; reflexivity).
    reflexivity.
  - rewrite length_take, length_app, !length_replicate. lia.
  - rewrite map_map. apply map_ext. intros r. apply compress_prefix.
Qed.

End SpectrumShape.

(** ** Claims about baseline subtraction and smoothing *)

(** C1 (the code departs from it).  The claim: the baseline at bin [i] is
    the mean over the in-range bins [i + referenceOffsets].  On one channel
    of twelve bins with a single peak of 12 at bin 8, the in-range shifted
    bins 3, 4, 5 and 11 are all zero, so the claimed result at bin 8 is 12;
    the loop averages the bins that [-5, -4, -3, 3, 4, 5] index directly
    (7, 8, 9, 3, 4, 5, the peak among them) and leaves 10. *)
Theorem baselineSubtract_ignores_shifted_bins :
  reference_inds reference_bins 12 8 = [3; 4; 5; 11]%Z
  /\ clip (nth 8 row_peak 0 - shifted_baseline reference_bins 12 row_peak 8) == 12
  /\ exists sub x,
       baselineSubtract amp_peak = Ok sub
       /\ entry sub 0 8 = Some x /\ x == 10 /\ ~ x == 12.
Proof.
  split; [reflexivity|]. split; [vm_compute; reflexivity|].
  eexists. eexists. split; [vm_compute; reflexivity|].
  split; [reflexivity|]. split; [reflexivity | discriminate].
Qed.

(** C2.  For an amplitude array with at least six bins the first loop
    succeeds, and the value left at every bin [i] of every channel is the
    clipped difference between the amplitude there and one constant of the
    channel, the mean of its bins [n-5, n-4, n-3, 3, 4, 5]; the bin number
    [i] enters through the amplitude only, the shifted indices not at all. *)
Theorem baseline_is_fixed_index_mean (amp : ndarray2) :
  (6 <= ncols amp)%nat ->
  exists sub,
    baselineSubtract amp = Ok sub
    /\ ncols sub = ncols amp
    /\ nrows sub = nrows amp
    /\ forall c r i,
         rows amp !! c = Some r -> (i < ncols amp)%nat ->
         entry sub c i = Some (clip (nth i r 0 - fixed_baseline (ncols amp) r)).
Proof.
  intros Hn. eexists. split.
  - unfold baselineSubtract.
    apply baselineSubtract_with_Ok. by apply reference_bins_index.
  - split; [reflexivity|]. split.
    + unfold nrows. simpl. by rewrite length_map.
    + intros c r i Hr Hi.
      by rewrite (entry_closed_form _ (fun i r =>
                    clip (nth i r 0 - fixed_baseline (ncols amp) r)) _ c i r).
Qed.

Lemma baseline_is_fixed_index_mean_witness :
  exists sub,
    baselineSubtract amp_ramp = Ok sub
    /\ ncols sub = ncols amp_ramp
    /\ nrows sub = nrows amp_ramp
    /\ forall c r i,
         rows amp_ramp !! c = Some r -> (i < ncols amp_ramp)%nat ->
         entry sub c i = Some (clip (nth i r 0 - fixed_baseline (ncols amp_ramp) r)).
Proof. apply (baseline_is_fixed_index_mean amp_ramp). simpl. lia. Defined.

(** C3 (the code departs from it).  The scenario: one channel
    [0,0,0,10,0,0,0] and offsets [-3,-2,-1,1,2,3].  The claim: at bin 3 the
    baseline is 0 and the result is 10.  The loop takes the mean over
    [amp[:, [-3,-2,-1,1,2,3]]], that is over bins 4, 5, 6, 1, 2, 3, the
    peak among them: the baseline is 10/6 and the result at bin 3 is 25/3. *)
Theorem baselineSubtract_scenario_bin3 :
  mapR (norm_index 7) offsets_scenario = Ok [4; 5; 6; 1; 2; 3]%nat
  /\ exists ref b sub x,
       take_cols amp_scenario offsets_scenario = Ok ref
       /\ mean_axis1 ref = [b] /\ b == 10 / 6
       /\ baselineSubtract_with offsets_scenario amp_scenario = Ok sub
       /\ entry sub 0 3 = Some x /\ x == 25 / 3 /\ ~ x == 10.
Proof.
  split; [reflexivity|].
  do 4 eexists. split; [vm_compute; reflexivity|].
  split; [vm_compute; reflexivity|]. split; [reflexivity|].
  split; [vm_compute; reflexivity|].
  split; [reflexivity|]. split; [reflexivity | discriminate].
Qed.

Lemma nonneg_closed_form (n : nat) (f : nat -> list Q -> Q) (src : list (list Q)) :
  (forall i r, r ∈ src -> 0 <= f i r) ->
  nonneg (Array2 n (map (fun r => map (fun i => f i r) (seq 0 n)) src)).
Proof.
  intros H. unfold nonneg. simpl.
  induction src as [|r src IH]; simpl; constructor.
  - apply Forall_map_intro. intros i. apply H. left.
  - apply IH. intros i r' Hr'. apply H. by right.
Qed.

Lemma smoothed_nonneg (bins : list Z) (n i : nat) (r : list Q) :
  Forall (fun x => 0 <= x) r -> 0 <= smoothed bins n i r.
Proof.
  intros Hr. unfold smoothed. apply mean_nonneg.
  apply Forall_map_intro. intros j.
  apply Forall_nth_default; [assumption | apply Qle_refl].
Qed.

Lemma smooth_nonneg (sub_amp : ndarray2) :
  nonneg sub_amp -> exists norm_amp, smooth sub_amp = Ok norm_amp /\ nonneg norm_amp.
Proof.
  intros H. eexists. split; [apply smooth_Ok|].
  apply nonneg_closed_form. intros i r Hr.
  apply smoothed_nonneg. unfold nonneg in H.
  rewrite Forall_forall in H. by apply H.
Qed.

(** C6.  Whenever the first loop produces an array, every entry of it is
    a clipped difference (zero where the difference is negative, the
    difference itself otherwise), hence non-negative; the second loop then
    succeeds on it and every entry of [norm_amp] is non-negative too. *)
Theorem baselineSubtract_smooth_nonneg (amp sub : ndarray2) :
  baselineSubtract amp = Ok sub ->
  (exists js, forall c r i,
      rows amp !! c = Some r -> (i < ncols amp)%nat ->
      entry sub c i = Some (clip (subtracted js i r))
      /\ (subtracted js i r < 0 -> entry sub c i = Some 0)
      /\ (0 <= subtracted js i r -> entry sub c i = Some (subtracted js i r)))
  /\ nonneg sub
  /\ exists norm_amp, smooth sub = Ok norm_amp /\ nonneg norm_amp.
Proof.
  intros H. apply baselineSubtract_with_inv in H as [js ->].
  assert (Hsub : nonneg (Array2 (ncols amp)
            (map (fun r => map (fun i => clip (subtracted js i r)) (seq 0 (ncols amp)))
                 (rows amp)))).
  { apply (nonneg_closed_form _ (fun i r => clip (subtracted js i r))).
    intros i r _. apply clip_nonneg. }
  split; [| split; [exact Hsub | by apply smooth_nonneg]].
  exists js. intros c r i Hr Hi.
  rewrite (entry_closed_form _ (fun i r => clip (subtracted js i r)) _ c i r)
    by assumption.
  split; [reflexivity|]. split; intros Hd.
  - by rewrite clip_of_neg.
  - by rewrite clip_of_nonneg.
Qed.

Lemma baselineSubtract_smooth_nonneg_witness :
  (exists js, forall c r i,
      rows amp_ramp !! c = Some r -> (i < ncols amp_ramp)%nat ->
      entry sub_ramp c i = Some (clip (subtracted js i r))
      /\ (subtracted js i r < 0 -> entry sub_ramp c i = Some 0)
      /\ (0 <= subtracted js i r -> entry sub_ramp c i = Some (subtracted js i r)))
  /\ nonneg sub_ramp
  /\ exists norm_amp, smooth sub_ramp = Ok norm_amp /\ nonneg norm_amp.
Proof.
  apply (baselineSubtract_smooth_nonneg amp_ramp sub_ramp).
  vm_compute. reflexivity.
Defined.

Lemma all_zero_closed_form (n : nat) (f : nat -> list Q -> Q) (src : list (list Q)) :
  (forall i r, r ∈ src -> f i r == 0) ->
  all_zero (Array2 n (map (fun r => map (fun i => f i r) (seq 0 n)) src)).
Proof.
  intros H. unfold all_zero. simpl.
  induction src as [|r src IH]; simpl; constructor.
  - apply Forall_map_intro. intros i. apply H. left.
  - apply IH. intros i r' Hr'. apply H. by right.
Qed.

Lemma mean_of_zero_row (js : list nat) (r : list Q) :
  Forall (fun x => x == 0) r -> mean (map (fun j => nth j r 0) js) == 0.
Proof.
  intros Hr. apply mean_zero. apply Forall_map_intro. intros j.
  by apply Forall_nth_default.
Qed.

(** With no bin, or with at least six, an all-zero array comes back all
    zero from the first loop. *)
Lemma baselineSubtract_zero_wide (amp : ndarray2) :
  ncols amp = 0%nat \/ (6 <= ncols amp)%nat ->
  all_zero amp ->
  exists sub, baselineSubtract amp = Ok sub /\ all_zero sub.
Proof.
  intros Hn Hz.
  assert (Hjs : exists js, baselineSubtract amp
            = Ok (Array2 (ncols amp)
                   (map (fun r => map (fun i => clip (subtracted js i r))
                                      (seq 0 (ncols amp))) (rows amp)))).
  { destruct Hn as [Hn | Hn].
    - destruct (baselineSubtract amp) as [sub|e] eqn:E.
      + apply baselineSubtract_with_inv in E as [js ->]. by exists js.
      + exfalso. revert E.
        unfold baselineSubtract, baselineSubtract_with, subtract_loop, empty_like.
        simpl ncols. rewrite Hn. discriminate.
    - eexists. apply baselineSubtract_with_Ok. by apply reference_bins_index. }
  destruct Hjs as [js Hjs]. eexists. split; [exact Hjs|].
  apply (all_zero_closed_form _ (fun i r => clip (subtracted js i r))).
  intros i r Hr. apply clip_zero. unfold subtracted.
  unfold all_zero in Hz. rewrite Forall_forall in Hz. specialize (Hz r Hr).
  rewrite (mean_of_zero_row js r Hz).
  assert (H0 : nth i r 0 == 0) by (by apply Forall_nth_default).
  rewrite H0. reflexivity.
Qed.

Lemma smooth_zero (sub_amp : ndarray2) :
  all_zero sub_amp ->
  exists norm_amp, smooth sub_amp = Ok norm_amp /\ all_zero norm_amp.
Proof.
  intros Hz. eexists. split; [apply smooth_Ok|].
  apply all_zero_closed_form. intros i r Hr.
  unfold smoothed. apply mean_of_zero_row.
  unfold all_zero in Hz. rewrite Forall_forall in Hz. by apply Hz.
Qed.

(** C8 as stated fails: one channel of three zero bins is an all-zero
    amplitude array, and the first loop raises [IndexError] on it, because
    the index array [-5, -4, -3, 3, 4, 5] does not fit an axis of fewer than
    six bins. *)
Lemma baselineSubtract_zero_narrow_raises :
  all_zero amp_narrow_zero
  /\ baselineSubtract amp_narrow_zero = Raise IndexError.
Proof.
  split; [| reflexivity].
  unfold all_zero. simpl. repeat constructor.
Qed.

(** C8 (amended).  An all-zero amplitude array with no bin or with at
    least six comes back all zero from the first loop, and every all-zero
    array comes back all zero from the second. *)
Theorem zero_in_zero_out (amp z : ndarray2) :
  ncols amp = 0%nat \/ (6 <= ncols amp)%nat ->
  all_zero amp ->
  all_zero z ->
  (exists sub, baselineSubtract amp = Ok sub /\ all_zero sub)
  /\ (exists norm_amp, smooth z = Ok norm_amp /\ all_zero norm_amp).
Proof.
  intros Hn Hamp Hz. split.
  - by apply baselineSubtract_zero_wide.
  - by apply smooth_zero.
Qed.

Lemma zero_in_zero_out_witness :
  (exists sub, baselineSubtract (zeros 2 6) = Ok sub /\ all_zero sub)
  /\ (exists norm_amp, smooth amp_narrow_zero = Ok norm_amp /\ all_zero norm_amp).
Proof.
  apply (zero_in_zero_out (zeros 2 6) amp_narrow_zero).
  - right. simpl. lia.
  - unfold all_zero. simpl. repeat constructor.
  - unfold all_zero. simpl. repeat constructor.
Defined.

(** C9.  Smoothing is not idempotent: on the channel [0, 3, 0] one pass
    gives [3/2, 1, 3/2] and a second pass gives [5/4, 4/3, 5/4]. *)
Theorem smooth_not_idempotent :
  exists m m1 m2,
    smooth m = Ok m1 /\ smooth m1 = Ok m2 /\ ~ array_eq m2 m1.
Proof.
  exists sub_spike. eexists. eexists.
  split; [vm_compute; reflexivity|]. split; [vm_compute; reflexivity|].
  intros [_ H]. simpl in H.
  inversion H as [|? ? ? ? Hrow _]; subst.
  inversion Hrow as [|? ? ? ? Hx _]; subst.
  discriminate Hx.
Qed.

Example smooth_spike_once :
  exists m1, smooth sub_spike = Ok m1
    /\ array_eq m1 (Array2 3 [[3 / 2; 1; 3 / 2]]).
Proof.
  eexists. split; [vm_compute; reflexivity|].
  split; [reflexivity|]. repeat constructor.
Qed.

Example smooth_spike_twice :
  exists m1 m2, smooth sub_spike = Ok m1 /\ smooth m1 = Ok m2
    /\ array_eq m2 (Array2 3 [[5 / 4; 4 / 3; 5 / 4]]).
Proof.
  do 2 eexists. split; [vm_compute; reflexivity|].
  split; [vm_compute; reflexivity|].
  split; [reflexivity|]. repeat constructor.
Qed.

(** ** Claims about the amplitudes at target frequencies *)

Lemma Qabs_zero_inv (x : Q) : Qabs x <= 0 -> x == 0.
Proof.
  intros H. apply Qabs_Qle_condition in H as [H1 H2]. lra.
Qed.

Lemma nearest_first_min (freqs : list Q) (f : Q) :
  freqs <> [] ->
  argmin (distances freqs f) = Ok (nearest freqs f)
  /\ is_first_min (distances freqs f) (nearest freqs f).
Proof.
  intros Hne.
  destruct (argmin_Ok (distances freqs f)) as (r & Hr & Hmin).
  { intros C. by apply distances_nil in C. }
  unfold nearest. rewrite Hr. auto.
Qed.

Lemma lookup_distances (freqs : list Q) (f : Q) (j : nat) (d : Q) :
  distances freqs f !! j = Some d <->
  exists fj, freqs !! j = Some fj /\ d = Qabs (fj - f).
Proof.
  unfold distances. rewrite lookup_map. rewrite fmap_Some.
  split; intros (fj & H1 & H2); eauto.
Qed.

(** C5.  On a non-empty frequency axis (and an amplitude array with one
    column per frequency) the cell succeeds, and for the [i]-th target [f]
    it picks the bin [ind] whose frequency is nearest to [f], the first such
    bin when several are equally near; [closest_freqs[i]] is that bin's
    frequency and column [i] of [target_amp] is that bin's column of [amp].
    When the axis holds [f] itself, the frequency returned equals [f]. *)
Theorem nearestBinAmplitudes_first_nearest (freqs : list Q) (amp : ndarray2)
    (target_freqs : list Q) :
  freqs <> [] ->
  wf amp ->
  ncols amp = length freqs ->
  exists closest_freqs target_amp,
    nearestBinAmplitudes freqs amp target_freqs = Ok (closest_freqs, target_amp)
    /\ length closest_freqs = length target_freqs
    /\ forall i f, target_freqs !! i = Some f ->
         exists ind fr,
           argmin (distances freqs f) = Ok ind
           /\ freqs !! ind = Some fr
           /\ closest_freqs !! i = Some fr
           /\ (forall j fj, freqs !! j = Some fj -> Qabs (fr - f) <= Qabs (fj - f))
           /\ (forall j fj, (j < ind)%nat -> freqs !! j = Some fj ->
                 Qabs (fr - f) < Qabs (fj - f))
           /\ (forall c r, rows amp !! c = Some r ->
                 is_Some (r !! ind) /\ entry target_amp c i = r !! ind)
           /\ (forall j fj, freqs !! j = Some fj -> fj == f -> fr == f).
Proof.
  intros Hne Hwf Hcols.
  assert (Hok : Forall (target_ok freqs amp) target_freqs).
  { apply Forall_forall. intros f _. split; [assumption|].
    destruct (nearest_first_min freqs f Hne) as [_ Hmin].
    apply is_first_min_bound in Hmin.
    unfold distances in Hmin. rewrite length_map in Hmin. lia. }
  do 2 eexists. split; [by apply nearestBinAmplitudes_Ok|].
  split; [by rewrite length_map|].
  intros i f Hf.
  destruct (nearest_first_min freqs f Hne) as [Harg (m & Hm & Hle & Hlt)].
  apply lookup_distances in Hm as (fr & Hfr & ->).
  exists (nearest freqs f), fr.
  split; [assumption|]. split; [assumption|]. split.
  { rewrite lookup_map, Hf. simpl. by rewrite nth_lookup, Hfr. }
  split.
  { intros j fj Hj. apply (Hle j). apply lookup_distances. eauto. }
  split.
  { intros j fj Hlt' Hj. apply (Hlt j); [assumption|].
    apply lookup_distances. eauto. }
  split.
  { intros c r Hr.
    assert (Hlen : length r = ncols amp).
    { unfold wf in Hwf. eapply Forall_lookup in Hwf; eauto. }
    assert (Hind : (nearest freqs f < length r)%nat).
    { apply lookup_lt_Some in Hfr. lia. }
    apply lookup_lt_is_Some in Hind. split; [assumption|].
    destruct Hind as [x Hx].
    unfold entry. simpl. rewrite lookup_map, Hr. simpl.
    rewrite lookup_map, Hf. simpl. by rewrite nth_lookup, Hx. }
  intros j fj Hj Heq.
  assert (H0 : Qabs (fr - f) <= 0).
  { eapply Qle_trans; [apply (Hle j (Qabs (fj - f)))|].
    - apply lookup_distances. eauto.
    - rewrite Heq. apply Qabs_Qle_condition. lra. }
  apply Qabs_zero_inv in H0. lra.
Qed.

Lemma nearestBinAmplitudes_first_nearest_witness :
  exists closest_freqs target_amp,
    nearestBinAmplitudes freqs_example amp_ramp targets_example
    = Ok (closest_freqs, target_amp)
    /\ length closest_freqs = length targets_example
    /\ forall i f, targets_example !! i = Some f ->
         exists ind fr,
           argmin (distances freqs_example f) = Ok ind
           /\ freqs_example !! ind = Some fr
           /\ closest_freqs !! i = Some fr
           /\ (forall j fj, freqs_example !! j = Some fj ->
                 Qabs (fr - f) <= Qabs (fj - f))
           /\ (forall j fj, (j < ind)%nat -> freqs_example !! j = Some fj ->
                 Qabs (fr - f) < Qabs (fj - f))
           /\ (forall c r, rows amp_ramp !! c = Some r ->
                 is_Some (r !! ind) /\ entry target_amp c i = r !! ind)
           /\ (forall j fj, freqs_example !! j = Some fj -> fj == f -> fr == f).
Proof.
  apply (nearestBinAmplitudes_first_nearest freqs_example amp_ramp targets_example).
  - discriminate.
  - unfold wf. simpl. repeat constructor.
  - reflexivity.
Defined.

(** On the example axis the target 3/4 lies midway between 1/2 and 1: the
    lower bin wins. *)
Example nearest_tie_lowest_index :
  nearestBinAmplitudes freqs_example amp_ramp targets_example
  = Ok ([1 / 2; 2; 5 / 2], Array2 3 [[2; 5; 6]; [5; 2; 1]]).
Proof. vm_compute. reflexivity. Qed.

Lemma fft_cell_inv (fft_abs : nat -> list Q -> list Q) (data : ndarray2)
    (sampling_rate : Q) (s : session) :
  fft_cell fft_abs data sampling_rate = Ok s ->
  computeSpectrum fft_abs data sampling_rate = Ok (freqs s, amp s)
  /\ exists sub_amp,
       baselineSubtract (amp s) = Ok sub_amp
       /\ smooth_with bins_to_avg (length (freqs s)) sub_amp = Ok (norm_amp s).
Proof.
  unfold fft_cell. intros H.
  apply bind_Ok in H as ([fr a] & H1 & H).
  apply bind_Ok in H as (sub & H2 & H).
  apply bind_Ok in H as (norm & H3 & H).
  injection H as <-. simpl in *. eauto.
Qed.

(** C10.  After the FFT cell has run, the target-frequency cell reads the
    [amp] that [computeSpectrum] returned: column [i] of [target_amp] is the
    column of that array at the bin chosen for the [i]-th target, and the
    outcome is the same whatever [norm_amp] holds. *)
Theorem target_amp_reads_raw_amp (fft_abs : nat -> list Q -> list Q)
    (data : ndarray2) (sampling_rate : Q) (s : session)
    (target_freqs closest_freqs : list Q) (target_amp : ndarray2) :
  fft_cell fft_abs data sampling_rate = Ok s ->
  target_cell s target_freqs = Ok (closest_freqs, target_amp) ->
  computeSpectrum fft_abs data sampling_rate = Ok (freqs s, amp s)
  /\ (forall other : ndarray2,
        target_cell (Session (freqs s) (amp s) other) target_freqs
        = Ok (closest_freqs, target_amp))
  /\ forall i f, target_freqs !! i = Some f ->
       exists ind,
         argmin (distances (freqs s) f) = Ok ind
         /\ forall c r, rows (amp s) !! c = Some r ->
              entry target_amp c i = Some (nth ind r 0).
Proof.
  intros Hcell Htarget.
  split; [by apply fft_cell_inv in Hcell as [H _]|].
  split; [intros other; exact Htarget|].
  unfold target_cell in Htarget.
  pose proof (nearestBinAmplitudes_inv _ _ _ _ Htarget) as Hok.
  rewrite (nearestBinAmplitudes_Ok _ _ _ Hok) in Htarget.
  injection Htarget as <- <-.
  intros i f Hf.
  assert (Hfok : target_ok (freqs s) (amp s) f).
  { rewrite Forall_forall in Hok. apply Hok. by eapply list_elem_of_lookup_2. }
  destruct Hfok as [Hne _].
  destruct (nearest_first_min (freqs s) f Hne) as [Harg _].
  exists (nearest (freqs s) f). split; [assumption|].
  intros c r Hr. unfold entry. simpl.
  rewrite lookup_map, Hr. simpl. by rewrite lookup_map, Hf.
Qed.

Lemma target_amp_reads_raw_amp_witness :
  computeSpectrum impulse_fft_abs impulse12 12
  = Ok (freqs session_impulse, amp session_impulse)
  /\ (forall other : ndarray2,
        target_cell (Session (freqs session_impulse) (amp session_impulse) other)
          targets_impulse
        = Ok ([24 # 12; 36 # 12], Array2 2 [[3; 3]]))
  /\ forall i f, targets_impulse !! i = Some f ->
       exists ind,
         argmin (distances (freqs session_impulse) f) = Ok ind
         /\ forall c r, rows (amp session_impulse) !! c = Some r ->
              entry (Array2 2 [[3; 3]]) c i = Some (nth ind r 0).
Proof.
  apply (target_amp_reads_raw_amp impulse_fft_abs impulse12 12 session_impulse
           targets_impulse [24 # 12; 36 # 12] (Array2 2 [[3; 3]])).
  - vm_compute. reflexivity.
  - vm_compute. reflexivity.
Defined.

Example session_impulse_norm_amp_is_zero :
  all_zero (norm_amp session_impulse) /\ ~ all_zero (amp session_impulse).
Proof.
  split.
  - unfold all_zero. simpl. repeat constructor.
  - unfold all_zero. simpl. intros H.
    inversion H as [|? ? Hrow _]; subst.
    inversion Hrow as [|? ? Hx _]; subst. discriminate Hx.
Qed.

(** ** Claims about the spectrum *)


(** *** The statements one by one *)

Lemma compress_map_Finite (mask : list bool) (xs : list Q) :
  compress mask (map Finite xs) = map Finite (compress mask xs).
Proof.
  revert xs. induction mask as [|b mask IH]; intros [|x xs]; cbn; try reflexivity.
  destruct b; by rewrite IH.
Qed.

Section RunFFTFacts.

Variable fft_abs : nat -> list Q -> list Q.

(** With a zero rate the first division raises; without samples the
    division inside [fftfreq] does.  Nothing has been done by then. *)
Lemma run_fft_division (data : ndarray2) (q : Q) (k : kernel) :
  ncols data = 0%nat \/ q == 0 ->
  run_fft fft_abs data (Finite q) k = (Raise ZeroDivisionError, k).
Proof.
  intros H. unfold run_fft, and_then, lift, py_reciprocal.
  destruct (Qeq_bool q 0) eqn:E.
  - apply Qeq_bool_iff in E. by rewrite py_div_Raise.
  - apply Qeq_bool_neq in E. rewrite py_div_Ok by assumption. cbn [bind].
    destruct H as [H | H]; [| contradiction].
    unfold fftfreq_run, and_then, lift, py_int_times, py_reciprocal.
    rewrite py_div_Raise; [reflexivity|].
    rewrite H. simpl. apply Qmult_0_l.
Qed.

(** An infinite rate has the reciprocal zero, and the division inside
    [fftfreq] raises whatever the number of samples. *)
Lemma run_fft_infinite (data : ndarray2) (negative : bool) (k : kernel) :
  run_fft fft_abs data (Infinite negative) k = (Raise ZeroDivisionError, k).
Proof.
  unfold run_fft, and_then, lift, py_reciprocal.
  unfold fftfreq_run, and_then, lift, py_int_times, py_reciprocal.
  rewrite py_div_Raise; [reflexivity | apply Qmult_0_r].
Qed.

(** A finite rate other than zero on a signal with samples: the run
    reaches its end and binds what [computeSpectrum] returns. *)
Lemma run_fft_finite (data : ndarray2) (q : Q) (k : kernel) :
  (0 < ncols data)%nat -> ~ q == 0 ->
  let mask := nonneg_mask (ncols data) q in
  run_fft fft_abs data (Finite q) k
  = (Ok tt,
     Kernel (Some (map Finite (compress mask (all_freqs (ncols data) q))))
            (Some (Array2 (length (compress mask mask))
                     (map (compress mask) (map (fft_abs (ncols data)) (rows data)))))
            (built k ++ run_fft_calls)).
Proof.
  intros Hn Hq mask. unfold run_fft, and_then, lift, py_reciprocal.
  rewrite py_div_Ok by assumption. cbn [bind].
  unfold fftfreq_run, and_then, lift, py_int_times, py_reciprocal.
  rewrite py_div_Ok by (by apply step_nonzero). cbn [bind].
  unfold builds, assign_freqs, assign_amp. cbn [var_freqs var_amp built].
  fold (fft_bins (ncols data)). fold (bin_width (ncols data) q).
  assert (Efreqs : map (scale_bin (Finite (bin_width (ncols data) q)))
                     (fft_bins (ncols data))
                   = map Finite (all_freqs (ncols data) q)).
  { unfold all_freqs. by rewrite map_map. }
  rewrite Efreqs.
  assert (Emask : map float_nonneg (map Finite (all_freqs (ncols data) q)) = mask).
  { unfold mask, nonneg_mask. by rewrite map_map. }
  rewrite Emask.
  unfold abs_fft. destruct (Nat.eqb_spec (ncols data) 0) as [E|_]; [lia|].
  unfold mask_cols. cbn [ncols rows].
  assert (Hlen : length mask = ncols data).
  { unfold mask, nonneg_mask, all_freqs. by rewrite !length_map, length_fft_bins. }
  rewrite Hlen, Nat.eqb_refl. rewrite compress_map_Finite.
  unfold run_fft_calls. by rewrite <- !app_assoc.
Qed.

(** A NaN rate raises nowhere in the divisions: every frequency is NaN
    and no bin is kept.  Without samples [np.fft.fft] refuses the
    transform, after [freqs] has been bound. *)
Lemma run_fft_nan (data : ndarray2) (k : kernel) :
  fst (run_fft fft_abs data NotANumber k)
  = if Nat.eqb (ncols data) 0 then Raise ValueError else Ok tt.
Proof.
  unfold run_fft, and_then, lift, py_reciprocal.
  unfold fftfreq_run, and_then, lift, py_int_times, py_reciprocal.
  unfold builds, assign_freqs, assign_amp. cbn [var_freqs var_amp built].
  unfold abs_fft. destruct (Nat.eqb_spec (ncols data) 0) as [E|E]; [reflexivity|].
  unfold mask_cols. cbn [ncols rows].
  fold (fft_bins (ncols data)).
  rewrite !length_map, length_fft_bins, Nat.eqb_refl. reflexivity.
Qed.

End RunFFTFacts.



Lemma lookup_multiples (w : Q) (N i : nat) (x : Q) :
  map (fun k => inject_Z (Z.of_nat k) * w) (seq 0 N) !! i = Some x ->
  (i < N)%nat /\ x = inject_Z (Z.of_nat i) * w.
Proof.
  rewrite lookup_map. intros H. apply fmap_Some in H as (k & Hk & ->).
  apply lookup_seq in Hk as [-> Hi]. auto.
Qed.

(** C7.  For a signal with at least one sample and a positive sampling
    rate the cell succeeds; [freqs] has one value per column of [amp] and
    every channel of [amp] has that many entries; the bins kept are the
    first [(T - 1) // 2 + 1]; the frequencies are non-negative, start at
    zero and increase strictly. *)
Theorem computeSpectrum_spectrum_invariant (fft_abs : nat -> list Q -> list Q)
    (data : ndarray2) (sampling_rate : Q) :
  (forall n row, length (fft_abs n row) = n) ->
  (0 < ncols data)%nat ->
  0 < sampling_rate ->
  exists freqs amp,
    computeSpectrum fft_abs data sampling_rate = Ok (freqs, amp)
    /\ length freqs = ncols amp
    /\ wf amp
    /\ nrows amp = nrows data
    /\ length freqs = S ((ncols data - 1) / 2)
    /\ Forall (fun x => 0 <= x) freqs
    /\ (exists f0, freqs !! 0%nat = Some f0 /\ f0 == 0)
    /\ (forall i j x y, (i < j)%nat ->
          freqs !! i = Some x -> freqs !! j = Some y -> x < y).
Proof.
  intros Hfft Hn Hs.
  pose proof (computeSpectrum_pos fft_abs data sampling_rate Hn Hs) as Hok.
  cbv zeta in Hok.
  pose proof (bin_width_pos (ncols data) sampling_rate Hn Hs) as Hw.
  do 2 eexists. split; [exact Hok|].
  split; [by rewrite length_map, length_seq|].
  split.
  { unfold wf. cbn [rows ncols]. apply Forall_map_intro. intros r.
    rewrite length_take, Hfft.
    assert ((ncols data - 1) / 2 < ncols data)%nat
      by (apply Nat.Div0.div_lt_upper_bound; lia).
    lia. }
  split; [unfold nrows; cbn [rows]; by rewrite length_map|].
  split; [by rewrite length_map, length_seq|].
  split.
  { apply Forall_map_intro. intros k.
    apply Qmult_le_0_compat; [| by apply Qlt_le_weak].
    change 0 with (inject_Z 0). rewrite <- Zle_Qle. lia. }
  split.
  { eexists. split; [reflexivity|]. apply Qmult_0_l. }
  intros i j x y Hij Hx Hy.
  apply lookup_multiples in Hx as [_ ->].
  apply lookup_multiples in Hy as [_ ->].
  apply Qmult_lt_compat_r; [assumption|].
  rewrite <- Zlt_Qlt. lia.
Qed.

Lemma computeSpectrum_spectrum_invariant_witness :
  exists freqs amp,
    computeSpectrum impulse_fft_abs impulse12 12 = Ok (freqs, amp)
    /\ length freqs = ncols amp
    /\ wf amp
    /\ nrows amp = nrows impulse12
    /\ length freqs = S ((ncols impulse12 - 1) / 2)
    /\ Forall (fun x => 0 <= x) freqs
    /\ (exists f0, freqs !! 0%nat = Some f0 /\ f0 == 0)
    /\ (forall i j x y, (i < j)%nat ->
          freqs !! i = Some x -> freqs !! j = Some y -> x < y).
Proof.
  apply (computeSpectrum_spectrum_invariant impulse_fft_abs impulse12 12).
  - intros n row. apply length_replicate.
  - simpl. lia.
  - reflexivity.
Defined.

Example computeSpectrum_impulse12 :
  computeSpectrum impulse_fft_abs impulse12 12
  = Ok ([0 # 12; 12 # 12; 24 # 12; 36 # 12; 48 # 12; 60 # 12],
        Array2 6 [[3; 3; 3; 3; 3; 3]]).
Proof. vm_compute. reflexivity. Qed.

(** * Further properties of the frequency-tagging cells *)

(** ** The first loop: outcome, shape and size of the result *)

Lemma baselineSubtract_wide_Ok (amp : ndarray2) :
  ncols amp = 0%nat \/ (6 <= ncols amp)%nat ->
  exists js,
    baselineSubtract amp
    = Ok (Array2 (ncols amp)
           (map (fun r => map (fun i => clip (subtracted js i r)) (seq 0 (ncols amp)))
                (rows amp))).
Proof.
  intros [Hn | Hn].
  - destruct (baselineSubtract amp) as [sub|e] eqn:E.
    + apply baselineSubtract_with_inv in E as [js ->]. by exists js.
    + exfalso. revert E.
      unfold baselineSubtract, baselineSubtract_with, subtract_loop, empty_like.
      simpl ncols. rewrite Hn. discriminate.
  - eexists. apply baselineSubtract_with_Ok. by apply reference_bins_index.
Qed.

(** On an array with at least one channel the first loop fails exactly
    when there are one to five bins, and then with [IndexError]; with no
    bin, or with six and more, it returns. *)
Theorem baselineSubtract_outcome (amp : ndarray2) :
  (0 < nrows amp)%nat ->
  (baselineSubtract amp = Raise IndexError <-> (0 < ncols amp < 6)%nat)
  /\ ((exists sub, baselineSubtract amp = Ok sub)
      <-> ncols amp = 0%nat \/ (6 <= ncols amp)%nat)
  /\ (forall e, baselineSubtract amp = Raise e -> e = IndexError).
Proof.
  intros _. destruct (decide (0 < ncols amp < 6)%nat) as [Hn | Hn].
  - rewrite (baselineSubtract_narrow_raises amp Hn).
    split; [split; auto|]. split.
    + split; [intros [sub H]; discriminate | lia].
    + by intros e [= <-].
  - destruct (baselineSubtract_wide_Ok amp) as [js Hjs]; [lia|].
    rewrite Hjs. split; [split; [discriminate | contradiction]|]. split.
    + split; [lia | eauto].
    + discriminate.
Qed.

Lemma baselineSubtract_outcome_witness :
  (0 < nrows amp_narrow_zero)%nat
  /\ (baselineSubtract amp_narrow_zero = Raise IndexError
      <-> (0 < ncols amp_narrow_zero < 6)%nat)
  /\ ((exists sub, baselineSubtract amp_narrow_zero = Ok sub)
      <-> ncols amp_narrow_zero = 0%nat \/ (6 <= ncols amp_narrow_zero)%nat)
  /\ (forall e, baselineSubtract amp_narrow_zero = Raise e -> e = IndexError).
Proof.
  assert (H : (0 < nrows amp_narrow_zero)%nat) by (unfold nrows; simpl; lia).
  split; [exact H|].
  apply (baselineSubtract_outcome amp_narrow_zero). exact H.
Defined.

Lemma wf_closed_form (n : nat) (f : nat -> list Q -> Q) (src : list (list Q)) :
  wf (Array2 n (map (fun r => map (fun i => f i r) (seq 0 n)) src)).
Proof.
  unfold wf. cbn [rows ncols]. apply Forall_map_intro. intros r.
  by rewrite length_map, length_seq.
Qed.

(** The result of the first loop has the shape of its input, and every
    channel of it has one entry per bin even when the input is ragged. *)
Theorem baselineSubtract_shape (amp sub : ndarray2) :
  baselineSubtract amp = Ok sub ->
  ncols sub = ncols amp /\ nrows sub = nrows amp /\ wf sub.
Proof.
  intros H. apply baselineSubtract_with_inv in H as [js ->].
  split; [reflexivity|]. split.
  - unfold nrows. cbn [rows]. by rewrite length_map.
  - apply (wf_closed_form _ (fun i r => clip (subtracted js i r))).
Qed.

Lemma baselineSubtract_shape_witness :
  ncols sub_ramp = ncols amp_ramp /\ nrows sub_ramp = nrows amp_ramp /\ wf sub_ramp.
Proof.
  apply (baselineSubtract_shape amp_ramp sub_ramp). vm_compute. reflexivity.
Defined.

Lemma entry_Some_nth (a : ndarray2) (c i : nat) (x : Q) :
  entry a c i = Some x ->
  exists r, rows a !! c = Some r /\ r !! i = Some x /\ nth i r 0 = x.
Proof.
  unfold entry. destruct (rows a !! c) as [r|] eqn:E; [| discriminate].
  intros H. exists r. split; [reflexivity|]. split; [assumption|].
  by rewrite nth_lookup, H.
Qed.

Lemma wf_row_length (a : ndarray2) (c : nat) (r : list Q) :
  wf a -> rows a !! c = Some r -> length r = ncols a.
Proof. intros Hwf Hr. unfold wf in Hwf. eapply Forall_lookup in Hwf; eauto. Qed.

Lemma clip_le (d x : Q) : d <= x -> 0 <= x -> clip d <= x.
Proof.
  intros Hd Hx. unfold clip. destruct (Qlt_bool d 0); assumption.
Qed.

(** On non-negative amplitudes (as [np.abs] produces) the first loop never
    raises a value: each entry of the result lies between zero and the
    amplitude it was computed from. *)
Theorem baselineSubtract_between (amp sub : ndarray2) :
  wf amp ->
  nonneg amp ->
  baselineSubtract amp = Ok sub ->
  forall c i x, entry amp c i = Some x ->
    exists y, entry sub c i = Some y /\ 0 <= y <= x.
Proof.
  intros Hwf Hpos H c i x Hx.
  apply baselineSubtract_with_inv in H as [js ->].
  apply entry_Some_nth in Hx as (r & Hr & Hi & Hnth).
  assert (Hlt : (i < ncols amp)%nat).
  { rewrite <- (wf_row_length amp c r Hwf Hr). by eapply lookup_lt_Some. }
  assert (Hrow : Forall (fun x => 0 <= x) r).
  { unfold nonneg in Hpos. eapply Forall_lookup in Hpos; eauto. }
  eexists. split.
  - by apply (entry_closed_form _ (fun i r => clip (subtracted js i r)) _ c i r).
  - split; [apply clip_nonneg|].
    assert (Hm : 0 <= mean (map (fun j => nth j r 0) js)).
    { apply mean_nonneg, Forall_map_intro. intros j.
      apply Forall_nth_default; [assumption | apply Qle_refl]. }
    assert (Hx0 : 0 <= x) by (eapply Forall_lookup in Hrow; eauto).
    apply clip_le; [| assumption].
    unfold subtracted. rewrite Hnth. lra.
Qed.

Lemma baselineSubtract_between_witness :
  nonneg amp_ramp
  /\ forall c i x, entry amp_ramp c i = Some x ->
       exists y, entry sub_ramp c i = Some y /\ 0 <= y <= x.
Proof.
  assert (Hpos : nonneg amp_ramp)
    by (unfold nonneg; simpl; repeat constructor; discriminate).
  split; [exact Hpos|].
  apply (baselineSubtract_between amp_ramp sub_ramp).
  - unfold wf. simpl. repeat constructor.
  - exact Hpos.
  - vm_compute. reflexivity.
Defined.

Lemma Qsum_const (c : Q) (xs : list Q) :
  Forall (fun x => x == c) xs ->
  Qsum xs == c * inject_Z (Z.of_nat (length xs)).
Proof.
  induction 1 as [|x xs Hx _ IH].
  - simpl. ring.
  - cbn [Qsum foldr length] in *. fold (Qsum xs). rewrite Hx, IH.
    rewrite Nat2Z.inj_succ. unfold Z.succ. rewrite inject_Z_plus. ring.
Qed.

Lemma inject_length_nonzero {A} (xs : list A) :
  xs <> [] -> ~ inject_Z (Z.of_nat (length xs)) == 0.
Proof.
  intros Hne C. apply inject_nat_zero in C.
  destruct xs; [congruence | discriminate].
Qed.

(** ** The second loop: outcome and window *)

(** The second loop never fails, and [norm_amp] has the shape of
    [sub_amp] with one entry per bin in every channel. *)
Theorem smooth_returns (sub_amp : ndarray2) :
  exists norm_amp,
    smooth sub_amp = Ok norm_amp
    /\ ncols norm_amp = ncols sub_amp
    /\ nrows norm_amp = nrows sub_amp
    /\ wf norm_amp.
Proof.
  eexists. split; [apply smooth_Ok|].
  split; [reflexivity|]. split.
  - unfold nrows. cbn [rows]. by rewrite length_map.
  - apply wf_closed_form.
Qed.

Lemma in_range_iff (n : nat) (k : Z) :
  in_range n k = true <-> (0 <= k < Z.of_nat n)%Z.
Proof.
  unfold in_range. rewrite andb_true_iff, Z.leb_le, Z.ltb_lt. reflexivity.
Qed.

(** The bins averaged for bin [i]: the bin and its two neighbours, without
    those that fall off the axis. *)
Lemma inds_to_avg_window (n i : nat) :
  (i < n)%nat ->
  inds_to_avg bins_to_avg n i
  = (if decide (0 < i)%nat then [(i - 1)%nat] else [])
    ++ [i]
    ++ (if decide (i + 1 < n)%nat then [(i + 1)%nat] else []).
Proof.
  intros Hi. unfold inds_to_avg, bins_to_avg, keep_in_range. cbn [map].
  rewrite !filter_cons, filter_nil.
  repeat case_decide;
    repeat match goal with
           | H : in_range _ _ = true |- _ => apply in_range_iff in H
           | H : ~ in_range _ _ = true |- _ => rewrite in_range_iff in H
           end;
    try lia; cbn [map app]; repeat f_equal; lia.
Qed.

(** Interior bins are replaced by the mean of three values, the first and
    the last bin by the mean of two, and the only bin of a one-bin axis by
    itself. *)
Theorem smooth_window (sub_amp norm_amp : ndarray2) (c i : nat) (r : list Q) :
  smooth sub_amp = Ok norm_amp ->
  rows sub_amp !! c = Some r ->
  (i < ncols sub_amp)%nat ->
  exists y,
    entry norm_amp c i = Some y
    /\ (ncols sub_amp = 1%nat -> y == nth 0 r 0)
    /\ ((2 <= ncols sub_amp)%nat -> i = 0%nat ->
          y == (nth 0 r 0 + nth 1 r 0) / 2)
    /\ ((0 < i)%nat -> (i + 1 < ncols sub_amp)%nat ->
          y == (nth (i - 1) r 0 + nth i r 0 + nth (i + 1) r 0) / 3)
    /\ ((2 <= ncols sub_amp)%nat -> (i + 1)%nat = ncols sub_amp ->
          y == (nth (i - 1) r 0 + nth i r 0) / 2).
Proof.
  intros H Hr Hi. rewrite smooth_Ok in H. injection H as <-.
  eexists. split.
  - by apply (entry_closed_form _ (fun i r => smoothed bins_to_avg _ i r) _ c i r).
  - unfold smoothed. rewrite inds_to_avg_window by assumption.
    split; [| split; [| split]].
    + intros Hn. repeat case_decide; try lia.
      replace i with 0%nat by lia. unfold mean. cbn. field.
    + intros Hn ->. repeat case_decide; try lia. unfold mean. cbn. field.
    + intros H0 H1. repeat case_decide; try lia. unfold mean. cbn. field.
    + intros Hn H1. repeat case_decide; try lia. unfold mean. cbn. field.
Qed.

Lemma smooth_window_witness :
  exists y,
    entry norm_spike 0 1 = Some y
    /\ (ncols sub_spike = 1%nat -> y == nth 0 [0; 3; 0] 0)
    /\ ((2 <= ncols sub_spike)%nat -> 1%nat = 0%nat ->
          y == (nth 0 [0; 3; 0] 0 + nth 1 [0; 3; 0] 0) / 2)
    /\ ((0 < 1)%nat -> (1 + 1 < ncols sub_spike)%nat ->
          y == (nth (1 - 1) [0; 3; 0] 0 + nth 1 [0; 3; 0] 0
                + nth (1 + 1) [0; 3; 0] 0) / 3)
    /\ ((2 <= ncols sub_spike)%nat -> (1 + 1)%nat = ncols sub_spike ->
          y == (nth (1 - 1) [0; 3; 0] 0 + nth 1 [0; 3; 0] 0) / 2).
Proof.
  apply (smooth_window sub_spike norm_spike 0 1 [0; 3; 0]).
  - vm_compute. reflexivity.
  - reflexivity.
  - simpl. lia.
Defined.

(** ** The target cell: outcome and targets beyond the axis *)

(** The target loop fails on an empty frequency axis with [ValueError]
    (from [np.argmin]) as soon as there is a target, returns empty outputs
    for an empty target list whatever the axis is, and in general returns
    exactly when every target finds its bin among the columns of [amp]. *)
Theorem nearestBinAmplitudes_outcome (freqs : list Q) (amp : ndarray2)
    (target_freqs : list Q) :
  nearestBinAmplitudes freqs amp [] = Ok ([], zeros (nrows amp) 0)
  /\ (target_freqs <> [] ->
        nearestBinAmplitudes [] amp target_freqs = Raise ValueError)
  /\ ((exists res, nearestBinAmplitudes freqs amp target_freqs = Ok res)
       <-> target_freqs = []
           \/ (freqs <> []
               /\ forall f, f ∈ target_freqs ->
                    exists ind, argmin (distances freqs f) = Ok ind
                                /\ (ind < ncols amp)%nat)).
Proof.
  split; [reflexivity|]. split.
  - destruct target_freqs as [|f tfs]; [congruence | reflexivity].
  - split.
    + intros [res H]. apply nearestBinAmplitudes_inv in H.
      destruct target_freqs as [|f0 tfs]; [by left | right].
      assert (Hne : freqs <> []).
      { inversion H as [|? ? [Hne _] _]. exact Hne. }
      split; [exact Hne|]. intros f Hf.
      rewrite Forall_forall in H. destruct (H f Hf) as [_ Hind].
      exists (nearest freqs f). split; [| exact Hind].
      by destruct (nearest_first_min freqs f Hne).
    + intros [-> | [Hne H]]; [eexists; reflexivity|].
      eexists. apply nearestBinAmplitudes_Ok.
      apply Forall_forall. intros f Hf. split; [exact Hne|].
      destruct (H f Hf) as (ind & Hind & Hlt).
      unfold nearest. by rewrite Hind.
Qed.

Lemma lookup_last_index (xs : list Q) (l : Q) :
  last xs = Some l -> xs !! (length xs - 1)%nat = Some l.
Proof.
  intros H. rewrite last_lookup in H.
  by replace (length xs - 1)%nat with (Nat.pred (length xs)) by lia.
Qed.

Lemma nearest_above (freqs : list Q) (l f : Q) :
  increasing freqs -> last freqs = Some l -> l <= f ->
  nearest freqs f = (length freqs - 1)%nat.
Proof.
  intros Hinc Hl Hf.
  assert (Hne : freqs <> []) by (intros ->; discriminate).
  destruct (nearest_first_min freqs f Hne) as [_ Hmin].
  pose proof (is_first_min_bound _ _ Hmin) as Hb.
  unfold distances in Hb. rewrite length_map in Hb.
  destruct Hmin as (m & Hm & Hle & _).
  apply lookup_distances in Hm as (fr & Hfr & ->).
  apply lookup_last_index in Hl.
  destruct (decide (nearest freqs f = length freqs - 1)%nat) as [E | E];
    [exact E | exfalso].
  assert (Hlt : fr < l) by (eapply (Hinc (nearest freqs f) (length freqs - 1)%nat);
                            eauto; lia).
  specialize (Hle (length freqs - 1)%nat (Qabs (l - f))).
  rewrite lookup_distances in Hle.
  assert (H1 : Qabs (fr - f) <= Qabs (l - f)) by (apply Hle; eauto).
  rewrite (Qabs_neg (fr - f)) in H1 by lra.
  rewrite (Qabs_neg (l - f)) in H1 by lra. lra.
Qed.

Lemma nearest_below (freqs : list Q) (h f : Q) :
  increasing freqs -> head freqs = Some h -> f <= h ->
  nearest freqs f = 0%nat.
Proof.
  intros Hinc Hh Hf.
  assert (Hne : freqs <> []) by (intros ->; discriminate).
  destruct (nearest_first_min freqs f Hne) as [_ Hmin].
  destruct Hmin as (m & Hm & _ & Hlt).
  apply lookup_distances in Hm as (fr & Hfr & ->).
  rewrite head_lookup in Hh.
  destruct (decide (nearest freqs f = 0)%nat) as [E | E]; [exact E | exfalso].
  assert (Hhfr : h < fr) by (eapply (Hinc 0%nat (nearest freqs f)); eauto; lia).
  specialize (Hlt 0%nat (Qabs (h - f))).
  rewrite lookup_distances in Hlt.
  assert (H1 : Qabs (fr - f) < Qabs (h - f)) by (apply Hlt; [lia | eauto]).
  rewrite (Qabs_pos (fr - f)) in H1 by lra.
  rewrite (Qabs_pos (h - f)) in H1 by lra. lra.
Qed.

(** On an increasing axis a target at or above the last frequency is
    given the last bin, and a target at or below the first frequency the
    first bin: nothing is extrapolated and nothing is refused. *)
Theorem target_beyond_axis (freqs : list Q) (amp : ndarray2) (f : Q) :
  increasing freqs ->
  ncols amp = length freqs ->
  (forall l, last freqs = Some l -> l <= f ->
     nearestBinAmplitudes freqs amp [f]
     = Ok ([l], Array2 1 (map (fun r => [nth (length freqs - 1) r 0]) (rows amp))))
  /\ (forall h, head freqs = Some h -> f <= h ->
        nearestBinAmplitudes freqs amp [f]
        = Ok ([h], Array2 1 (map (fun r => [nth 0 r 0]) (rows amp)))).
Proof.
  intros Hinc Hcols. split.
  - intros l Hl Hf.
    assert (Hne : freqs <> []) by (intros ->; discriminate).
    pose proof (nearest_above freqs l f Hinc Hl Hf) as Hind.
    rewrite nearestBinAmplitudes_Ok.
    + cbn [map length]. rewrite Hind.
      apply lookup_last_index in Hl. by rewrite nth_lookup, Hl.
    + constructor; [| constructor]. split; [exact Hne|].
      rewrite Hind, Hcols. destruct freqs; [congruence | simpl; lia].
  - intros h Hh Hf.
    assert (Hne : freqs <> []) by (intros ->; discriminate).
    pose proof (nearest_below freqs h f Hinc Hh Hf) as Hind.
    rewrite nearestBinAmplitudes_Ok.
    + cbn [map length]. rewrite Hind.
      rewrite head_lookup in Hh. by rewrite nth_lookup, Hh.
    + constructor; [| constructor]. split; [exact Hne|].
      rewrite Hind, Hcols. destruct freqs; [congruence | simpl; lia].
Qed.

Lemma freqs_example_increasing : increasing freqs_example.
Proof.
  intros i j x y Hij Hx Hy.
  do 6 (destruct i as [|i]; [injection Hx as <-;
    do 6 (destruct j as [|j]; [first [lia | by injection Hy as <-]|]);
    discriminate Hy|]).
  discriminate Hx.
Qed.

Lemma target_beyond_axis_witness :
  nearestBinAmplitudes freqs_example amp_ramp [7]
  = Ok ([5 / 2], Array2 1 (map (fun r => [nth (length freqs_example - 1) r 0])
                             (rows amp_ramp)))
  /\ nearestBinAmplitudes freqs_example amp_ramp [-1]
     = Ok ([0], Array2 1 (map (fun r => [nth 0 r 0]) (rows amp_ramp))).
Proof.
  split.
  - apply (target_beyond_axis freqs_example amp_ramp 7 freqs_example_increasing
             eq_refl); [reflexivity | discriminate].
  - apply (target_beyond_axis freqs_example amp_ramp (-1) freqs_example_increasing
             eq_refl); [reflexivity | discriminate].
Defined.

(** ** The spectrum at any sampling rate *)

Lemma length_compress_self {A} (mask : list bool) (xs : list A) :
  length xs = length mask ->
  length (compress mask xs) = length (compress mask mask).
Proof.
  revert xs. induction mask as [|b mask IH]; intros [|x xs] H;
    simpl in *; try reflexivity; try discriminate.
  destruct b; simpl; rewrite IH by lia; reflexivity.
Qed.

Lemma compress_kept (P : Q -> bool) (xs : list Q) :
  Forall (fun x => P x = true) (compress (map P xs) xs).
Proof.
  induction xs as [|x xs IH]; simpl; [constructor|].
  destruct (P x) eqn:E; [constructor|]; assumption.
Qed.

Lemma length_compress_le {A} (mask : list bool) (xs : list A) :
  (length (compress mask xs) <= length xs)%nat.
Proof.
  revert xs. induction mask as [|b mask IH]; intros [|x xs]; simpl; try lia.
  destruct b; simpl; specialize (IH xs); lia.
Qed.

Lemma fft_bins_head (n : nat) :
  (0 < n)%nat -> exists rest, fft_bins n = 0%Z :: rest.
Proof.
  intros Hn. unfold fft_bins, arange.
  rewrite Z.sub_0_r.
  assert (H : exists m, Z.to_nat ((Z.of_nat n - 1) / 2 + 1) = S m).
  { exists (Z.to_nat ((Z.of_nat n - 1) / 2)).
    rewrite Z2Nat.inj_add by (try apply Z.div_pos; lia).
    simpl. lia. }
  destruct H as [m ->]. simpl. eauto.
Qed.

Lemma computeSpectrum_inv (fft_abs : nat -> list Q -> list Q) (data : ndarray2)
    (sampling_rate : Q) (fs : list Q) (a : ndarray2) :
  computeSpectrum fft_abs data sampling_rate = Ok (fs, a) ->
  (0 < ncols data)%nat /\ ~ sampling_rate == 0
  /\ fs = compress (nonneg_mask (ncols data) sampling_rate)
            (all_freqs (ncols data) sampling_rate)
  /\ a = Array2 (length (compress (nonneg_mask (ncols data) sampling_rate)
                                  (nonneg_mask (ncols data) sampling_rate)))
            (map (compress (nonneg_mask (ncols data) sampling_rate))
                 (map (fft_abs (ncols data)) (rows data))).
Proof.
  intros H.
  destruct (Nat.eq_dec (ncols data) 0%nat) as [Hn | Hn].
  { rewrite computeSpectrum_Raise in H by (by left). discriminate. }
  destruct (Qeq_dec sampling_rate 0) as [Hs | Hs].
  { rewrite computeSpectrum_Raise in H by (by right). discriminate. }
  pose proof (computeSpectrum_Ok fft_abs data sampling_rate) as Hok.
  cbv zeta in Hok. rewrite Hok in H by (assumption || lia).
  injection H as <- <-. split; [lia|]. auto.
Qed.

Lemma computeSpectrum_axis_facts (fft_abs : nat -> list Q -> list Q)
    (data : ndarray2) (sampling_rate : Q) (fs : list Q) (a : ndarray2) :
  computeSpectrum fft_abs data sampling_rate = Ok (fs, a) ->
  length fs = ncols a
  /\ nrows a = nrows data
  /\ (1 <= length fs <= ncols data)%nat
  /\ Forall (fun x => 0 <= x) fs
  /\ exists f0, head fs = Some f0 /\ f0 == 0.
Proof.
  intros H. apply computeSpectrum_inv in H as (Hn & Hs & -> & ->).
  set (n := ncols data). set (mask := nonneg_mask n sampling_rate).
  set (all := all_freqs n sampling_rate).
  assert (Hlen : length all = n)
    by (unfold all, all_freqs; by rewrite length_map, length_fft_bins).
  assert (Hhead : exists f0 rest, compress mask all = f0 :: rest /\ f0 == 0).
  { unfold mask, nonneg_mask. fold all. unfold all, all_freqs.
    destruct (fft_bins_head n Hn) as [rest ->]. cbn [map compress].
    assert (E : Qle_bool 0 (inject_Z 0 * bin_width n sampling_rate) = true).
    { apply Qle_bool_iff. rewrite Qmult_0_l. apply Qle_refl. }
    rewrite E. eexists. eexists. split; [reflexivity | apply Qmult_0_l]. }
  destruct Hhead as (f0 & rest & Hc & Hf0).
  split; [| split; [| split; [| split]]].
  - cbn [ncols]. apply length_compress_self.
    unfold mask, nonneg_mask. fold all. by rewrite length_map.
  - unfold nrows. cbn [rows]. by rewrite !length_map.
  - split.
    + rewrite Hc. simpl. lia.
    + rewrite <- Hlen. apply length_compress_le.
  - unfold mask, nonneg_mask. fold all.
    pose proof (compress_kept (Qle_bool 0) all) as Hk.
    eapply Forall_impl; [exact Hk|]. intros x Hx. by apply Qle_bool_iff.
  - exists f0. rewrite Hc. auto.
Qed.

(** Whatever the sign of the sampling rate, a spectrum that is returned
    has one frequency per column of [amp], one row per channel, at least
    one and at most [T] bins, no negative frequency, and the zero frequency
    first. *)
Theorem computeSpectrum_any_rate (fft_abs : nat -> list Q -> list Q)
    (data : ndarray2) (sampling_rate : Q) (fs : list Q) (a : ndarray2) :
  computeSpectrum fft_abs data sampling_rate = Ok (fs, a) ->
  length fs = ncols a
  /\ nrows a = nrows data
  /\ (1 <= length fs <= ncols data)%nat
  /\ Forall (fun x => 0 <= x) fs
  /\ exists f0, head fs = Some f0 /\ f0 == 0.
Proof. apply computeSpectrum_axis_facts. Qed.

Lemma computeSpectrum_any_rate_witness :
  length [0 # 2; 1 # 2] = ncols (Array2 2 [[1; 1]])
  /\ nrows (Array2 2 [[1; 1]]) = nrows impulse2
  /\ (1 <= length [0 # 2; 1 # 2] <= ncols impulse2)%nat
  /\ Forall (fun x => 0 <= x) [0 # 2; 1 # 2]
  /\ exists f0, head [0 # 2; 1 # 2] = Some f0 /\ f0 == 0.
Proof.
  apply (computeSpectrum_any_rate impulse_fft_abs impulse2 (-1)).
  vm_compute. reflexivity.
Defined.

Lemma bin_width_ratio (n : nat) (sampling_rate : Q) :
  (0 < n)%nat -> ~ sampling_rate == 0 ->
  bin_width n sampling_rate == sampling_rate / inject_Z (Z.of_nat n).
Proof.
  intros Hn Hs. unfold bin_width. field. split; [| assumption].
  intros C. apply inject_nat_zero in C. lia.
Qed.

(** For a positive sampling rate the bins kept are the first
    [(T - 1) // 2 + 1] of the transform, in storage order: bin [k] of the
    returned axis is [k * val] for the [val = 1.0 / (T * (1 / sampling_rate))]
    that [np.fft.fftfreq] computes, and every channel of [amp] is the first
    [(T - 1) // 2 + 1] magnitudes of that channel's transform. *)
Theorem computeSpectrum_bins (fft_abs : nat -> list Q -> list Q)
    (data : ndarray2) (sampling_rate : Q) :
  (0 < ncols data)%nat ->
  0 < sampling_rate ->
  exists fs a,
    computeSpectrum fft_abs data sampling_rate = Ok (fs, a)
    /\ (forall k, (k < S ((ncols data - 1) / 2))%nat ->
          fs !! k
          = Some (inject_Z (Z.of_nat k)
                  * (1 / (inject_Z (Z.of_nat (ncols data)) * (1 / sampling_rate)))))
    /\ rows a = map (fun r => take (S ((ncols data - 1) / 2))
                                    (fft_abs (ncols data) r)) (rows data).
Proof.
  intros Hn Hs.
  pose proof (computeSpectrum_pos fft_abs data sampling_rate Hn Hs) as Hok.
  cbv zeta in Hok. do 2 eexists. split; [exact Hok|]. split; [| reflexivity].
  intros k Hk. rewrite lookup_map.
  assert (E : seq 0 (S ((ncols data - 1) / 2)) !! k = Some k)
    by (apply lookup_seq; lia).
  rewrite E. reflexivity.
Qed.

Lemma computeSpectrum_bins_witness :
  exists fs a,
    computeSpectrum impulse_fft_abs impulse12 12 = Ok (fs, a)
    /\ (forall k, (k < S ((ncols impulse12 - 1) / 2))%nat ->
          fs !! k
          = Some (inject_Z (Z.of_nat k)
                  * (1 / (inject_Z (Z.of_nat (ncols impulse12)) * (1 / 12)))))
    /\ rows a = map (fun r => take (S ((ncols impulse12 - 1) / 2))
                                    (impulse_fft_abs (ncols impulse12) r))
                     (rows impulse12).
Proof.
  apply (computeSpectrum_bins impulse_fft_abs impulse12 12).
  - simpl. lia.
  - reflexivity.
Defined.

Lemma bin_width_neg (n : nat) (sampling_rate : Q) :
  (0 < n)%nat -> sampling_rate < 0 -> bin_width n sampling_rate < 0.
Proof.
  intros Hn Hs.
  rewrite bin_width_ratio; [| assumption | intros C; rewrite C in Hs; discriminate Hs].
  assert (Hpos : 0 < inject_Z (Z.of_nat n))
    by (change 0 with (inject_Z 0); rewrite <- Zlt_Qlt; lia).
  apply Qinv_lt_0_compat in Hpos. unfold Qdiv. nra.
Qed.

Lemma arange_first (a b : Z) :
  (a < b)%Z -> exists rest, arange a b = a :: rest /\ Forall (fun k => (a < k)%Z) rest.
Proof.
  intros Hab. unfold arange.
  destruct (Z.to_nat (b - a)) as [|m] eqn:E; [lia|].
  cbn [seq map]. eexists. split; [by rewrite Z.add_0_r|].
  apply Forall_forall. intros k Hk.
  apply list_elem_of_fmap in Hk as (j & -> & Hj).
  apply elem_of_seq in Hj. lia.
Qed.

Lemma compress_head_tail {A} (a b : nat) (xs : list A) :
  compress (true :: replicate a false ++ replicate b true) xs
  = take 1 xs ++ take b (drop (S a) xs).
Proof.
  destruct xs as [|x xs]; [by rewrite take_nil, drop_nil, take_nil|].
  cbn [compress take drop app]. f_equal.
  revert xs. induction a as [|a IH]; intros xs.
  - cbn [replicate app]. rewrite drop_0.
    revert xs. induction b as [|b IHb]; intros [|y ys]; cbn; try reflexivity.
    by rewrite IHb.
  - destruct xs as [|y ys]; cbn; [by rewrite take_nil | apply IH].
Qed.

(** The mask [freqs >= 0] for a negative sampling rate: bin 0, none of
    the bins above it, all of the bins stored after them. *)
Lemma nonneg_mask_neg (n : nat) (sampling_rate : Q) :
  (0 < n)%nat -> sampling_rate < 0 ->
  nonneg_mask n sampling_rate
  = true :: replicate ((n - 1) / 2) false ++ replicate (n / 2) true.
Proof.
  intros Hn Hs. pose proof (bin_width_neg n sampling_rate Hn Hs) as Hw.
  unfold nonneg_mask, all_freqs, fft_bins. rewrite !map_app.
  destruct (arange_first 0 ((Z.of_nat n - 1) / 2 + 1)) as (rest & Hrest & Hpos).
  { assert (0 <= (Z.of_nat n - 1) / 2)%Z by (apply Z.div_pos; lia). lia. }
  assert (Hlen : length rest = ((n - 1) / 2)%nat).
  { assert (H : length (arange 0 ((Z.of_nat n - 1) / 2 + 1)) = S ((n - 1) / 2))
      by (rewrite length_arange; by apply half_up).
    rewrite Hrest in H. cbn [length] in H. lia. }
  rewrite Hrest. cbn [map app].
  assert (E0 : Qle_bool 0 (inject_Z 0 * bin_width n sampling_rate) = true)
    by (apply Qle_bool_iff; rewrite Qmult_0_l; apply Qle_refl).
  rewrite E0. f_equal. f_equal.
  - rewrite map_map, (map_const_replicate _ false); [by rewrite Hlen|].
    eapply Forall_impl; [exact Hpos|]. intros k Hk. simpl in Hk.
    destruct (Qle_bool 0 (inject_Z k * bin_width n sampling_rate)) eqn:E;
      [| reflexivity].
    apply Qle_bool_iff in E. exfalso.
    assert (Hk' : 0 < inject_Z k)
      by (change 0 with (inject_Z 0); rewrite <- Zlt_Qlt; lia).
    nra.
  - rewrite map_map, (map_const_replicate _ true).
    + by rewrite length_arange, half_down.
    + apply Forall_forall. intros k Hk. apply elem_of_arange in Hk.
      apply Qle_bool_iff.
      assert (Hk' : inject_Z k < 0)
        by (change 0 with (inject_Z 0); rewrite <- Zlt_Qlt; lia).
      nra.
Qed.

Lemma all_freqs_split (n : nat) (sampling_rate : Q) :
  (0 < n)%nat ->
  take 1 (all_freqs n sampling_rate) = [inject_Z 0 * bin_width n sampling_rate]
  /\ take (n / 2) (drop (S ((n - 1) / 2)) (all_freqs n sampling_rate))
     = map (fun k => inject_Z k * bin_width n sampling_rate)
           (arange (- (Z.of_nat n / 2)) 0).
Proof.
  intros Hn. unfold all_freqs. split.
  - destruct (fft_bins_head n Hn) as [rest ->]. reflexivity.
  - unfold fft_bins. rewrite map_app.
    assert (HN : length (map (fun k => inject_Z k * bin_width n sampling_rate)
                           (arange 0 ((Z.of_nat n - 1) / 2 + 1)))
                 = S ((n - 1) / 2))
      by (rewrite length_map, length_arange; by apply half_up).
    rewrite <- HN at 1. rewrite drop_app_length.
    apply take_ge. rewrite length_map, length_arange, half_down. lia.
Qed.

Lemma lookup_arange (a b : Z) (i : nat) (k : Z) :
  arange a b !! i = Some k -> k = (a + Z.of_nat i)%Z /\ (k < b)%Z.
Proof.
  unfold arange. rewrite lookup_map. intros H.
  apply fmap_Some in H as (j & Hj & ->).
  apply lookup_seq in Hj as [-> Hj]. simpl. lia.
Qed.

(** A negative sampling rate is accepted.  The axis returned then holds the
    zero frequency followed by the [T // 2] bins that the transform stores
    last, whose frequencies are positive and decrease; the columns of
    [amp] are those bins of the transform. *)
Theorem computeSpectrum_negative_rate (fft_abs : nat -> list Q -> list Q)
    (data : ndarray2) (sampling_rate : Q) :
  (0 < ncols data)%nat ->
  sampling_rate < 0 ->
  exists fs a,
    computeSpectrum fft_abs data sampling_rate = Ok (fs, a)
    /\ length fs = S (ncols data / 2)
    /\ (exists f0, fs !! 0%nat = Some f0 /\ f0 == 0)
    /\ (forall i x, (0 < i)%nat -> fs !! i = Some x -> 0 < x)
    /\ (forall i j x y, (0 < i < j)%nat ->
          fs !! i = Some x -> fs !! j = Some y -> y < x)
    /\ rows a
       = map (fun r => take 1 (fft_abs (ncols data) r)
                       ++ take (ncols data / 2)
                            (drop (S ((ncols data - 1) / 2))
                                  (fft_abs (ncols data) r)))
             (rows data).
Proof.
  intros Hn Hs. set (n := ncols data) in *.
  assert (Hs' : ~ sampling_rate == 0) by (intros C; rewrite C in Hs; discriminate Hs).
  pose proof (computeSpectrum_Ok fft_abs data sampling_rate Hn Hs') as Hok.
  cbv zeta in Hok. fold n in Hok.
  rewrite (nonneg_mask_neg n sampling_rate Hn Hs) in Hok.
  rewrite !compress_head_tail in Hok.
  destruct (all_freqs_split n sampling_rate Hn) as [H1 H2].
  rewrite H1, H2 in Hok.
  pose proof (bin_width_neg n sampling_rate Hn Hs) as Hw.
  set (w := bin_width n sampling_rate) in *.
  do 2 eexists. split; [exact Hok|].
  split; [| split; [| split; [| split]]].
  - cbn [app length]. by rewrite length_map, length_arange, half_down.
  - eexists. split; [reflexivity | apply Qmult_0_l].
  - intros [|i] x Hi Hx; [lia|]. cbn [app] in Hx.
    rewrite lookup_cons in Hx.
    rewrite lookup_map in Hx. apply fmap_Some in Hx as (k & Hk & ->).
    apply lookup_arange in Hk as [_ Hk].
    assert (Hk' : inject_Z k < 0)
      by (change 0 with (inject_Z 0); rewrite <- Zlt_Qlt; lia).
    nra.
  - intros [|i] [|j] x y Hij Hx Hy; try lia.
    cbn [app] in Hx, Hy. rewrite lookup_cons in Hx, Hy.
    rewrite lookup_map in Hx. apply fmap_Some in Hx as (k & Hk & ->).
    rewrite lookup_map in Hy. apply fmap_Some in Hy as (k' & Hk' & ->).
    apply lookup_arange in Hk as [-> _]. apply lookup_arange in Hk' as [-> _].
    assert (Hlt : inject_Z (- (Z.of_nat n / 2) + Z.of_nat i)
                  < inject_Z (- (Z.of_nat n / 2) + Z.of_nat j))
      by (rewrite <- Zlt_Qlt; lia).
    nra.
  - cbn [rows]. rewrite map_map. apply map_ext. intros r.
    apply compress_head_tail.
Qed.

Lemma computeSpectrum_negative_rate_witness :
  -1 < 0
  /\ exists fs a,
    computeSpectrum impulse_fft_abs impulse12 (-1) = Ok (fs, a)
    /\ length fs = S (ncols impulse12 / 2)
    /\ (exists f0, fs !! 0%nat = Some f0 /\ f0 == 0)
    /\ (forall i x, (0 < i)%nat -> fs !! i = Some x -> 0 < x)
    /\ (forall i j x y, (0 < i < j)%nat ->
          fs !! i = Some x -> fs !! j = Some y -> y < x)
    /\ rows a
       = map (fun r => take 1 (impulse_fft_abs (ncols impulse12) r)
                       ++ take (ncols impulse12 / 2)
                            (drop (S ((ncols impulse12 - 1) / 2))
                                  (impulse_fft_abs (ncols impulse12) r)))
             (rows impulse12).
Proof.
  split; [reflexivity|].
  apply (computeSpectrum_negative_rate impulse_fft_abs impulse12 (-1)).
  - simpl. lia.
  - reflexivity.
Defined.

(** ** The cells together *)

Lemma small_half (n : nat) : (0 < n <= 10)%nat -> (S ((n - 1) / 2) < 6)%nat.
Proof.
  intros Hn. assert ((n - 1) / 2 < 5)%nat; [| lia].
  apply Nat.Div0.div_lt_upper_bound. lia.
Qed.

Lemma large_half (n : nat) : (11 <= n)%nat -> (6 <= S ((n - 1) / 2))%nat.
Proof.
  intros Hn. assert (5 <= (n - 1) / 2)%nat; [| lia].
  apply Nat.div_le_lower_bound; lia.
Qed.

Lemma fft_cell_cases (fft_abs : nat -> list Q -> list Q) (data : ndarray2)
    (sampling_rate : Q) :
  0 < sampling_rate ->
  (ncols data = 0%nat
   /\ fft_cell fft_abs data sampling_rate = Raise ZeroDivisionError)
  \/ ((0 < ncols data <= 10)%nat
      /\ fft_cell fft_abs data sampling_rate = Raise IndexError)
  \/ ((11 <= ncols data)%nat
      /\ exists s, fft_cell fft_abs data sampling_rate = Ok s).
Proof.
  intros Hs. unfold fft_cell.
  destruct (decide (ncols data = 0%nat)) as [Hn | Hn].
  { left. split; [assumption|].
    by rewrite computeSpectrum_Raise by (by left). }
  right.
  pose proof (computeSpectrum_pos fft_abs data sampling_rate) as Hok.
  cbv zeta in Hok. rewrite Hok by (assumption || lia). cbn [bind fst snd].
  set (a := Array2 _ _).
  destruct (decide (ncols data <= 10)%nat) as [Hle | Hgt].
  - left. split; [lia|].
    rewrite (baselineSubtract_narrow_raises a); [reflexivity|].
    unfold a. cbn [ncols]. pose proof (small_half (ncols data)). lia.
  - right. split; [lia|].
    destruct (baselineSubtract_wide_Ok a) as [js Hjs].
    { right. unfold a. cbn [ncols]. apply large_half. lia. }
    rewrite Hjs. cbn [bind].
    rewrite smooth_with_Ok; [eexists; reflexivity|].
    unfold a. cbn [ncols]. by rewrite length_map, length_seq.
Qed.

(** For a positive sampling rate and data with at least one channel, the
    FFT cell as a whole stops with [ZeroDivisionError] on a signal without
    samples, with [IndexError] on a signal of one to ten samples (fewer than
    six bins are left for the first loop), and runs to its end from eleven
    samples on. *)
Theorem fft_cell_outcome (fft_abs : nat -> list Q -> list Q) (data : ndarray2)
    (sampling_rate : Q) :
  0 < sampling_rate ->
  (0 < nrows data)%nat ->
  (fft_cell fft_abs data sampling_rate = Raise ZeroDivisionError
   <-> ncols data = 0%nat)
  /\ (fft_cell fft_abs data sampling_rate = Raise IndexError
      <-> (0 < ncols data <= 10)%nat)
  /\ ((exists s, fft_cell fft_abs data sampling_rate = Ok s)
      <-> (11 <= ncols data)%nat).
Proof.
  intros Hs _.
  destruct (fft_cell_cases fft_abs data sampling_rate Hs)
    as [[Hn ->] | [[Hn ->] | [Hn [s ->]]]].
  - split; [split; auto|]. split; [split; [discriminate | lia]|].
    split; [intros [s H]; discriminate | lia].
  - split; [split; [discriminate | lia]|]. split; [split; auto|].
    split; [intros [s H]; discriminate | lia].
  - split; [split; [discriminate | lia]|]. split; [split; [discriminate | lia]|].
    split; [auto | eauto].
Qed.

Lemma fft_cell_outcome_witness :
  (0 < nrows impulse12)%nat
  /\ (fft_cell impulse_fft_abs impulse12 12 = Raise ZeroDivisionError
   <-> ncols impulse12 = 0%nat)
  /\ (fft_cell impulse_fft_abs impulse12 12 = Raise IndexError
      <-> (0 < ncols impulse12 <= 10)%nat)
  /\ ((exists s, fft_cell impulse_fft_abs impulse12 12 = Ok s)
      <-> (11 <= ncols impulse12)%nat).
Proof.
  assert (H : (0 < nrows impulse12)%nat) by (unfold nrows; simpl; lia).
  split; [exact H|].
  apply (fft_cell_outcome impulse_fft_abs impulse12 12); [reflexivity | exact H].
Defined.

(** When the FFT cell has run to its end, the session it leaves is
    consistent: one frequency per column of [amp], [norm_amp] of the shape
    of [amp] with no negative entry, and the target cell then returns for
    every list of targets. *)
Theorem target_cell_after_fft_cell (fft_abs : nat -> list Q -> list Q)
    (data : ndarray2) (sampling_rate : Q) (s : session) :
  fft_cell fft_abs data sampling_rate = Ok s ->
  length (freqs s) = ncols (amp s)
  /\ ncols (norm_amp s) = ncols (amp s)
  /\ nrows (norm_amp s) = nrows (amp s)
  /\ wf (norm_amp s)
  /\ nonneg (norm_amp s)
  /\ forall target_freqs, exists res, target_cell s target_freqs = Ok res.
Proof.
  intros H. apply fft_cell_inv in H as (Hspec & sub & Hsub & Hnorm).
  apply computeSpectrum_axis_facts in Hspec as (Hlen & _ & [Hpos _] & _).
  pose proof Hsub as Hsub'.
  apply baselineSubtract_with_inv in Hsub' as [js Hjs].
  assert (Hncols : ncols sub = ncols (amp s)) by (by rewrite Hjs).
  assert (Hrows : nrows sub = nrows (amp s))
    by (rewrite Hjs; unfold nrows; cbn [rows]; by rewrite length_map).
  assert (Hnn : nonneg sub).
  { rewrite Hjs. apply (nonneg_closed_form _ (fun i r => clip (subtracted js i r))).
    intros i r _. apply clip_nonneg. }
  rewrite smooth_with_Ok in Hnorm by congruence.
  injection Hnorm as Hnorm.
  split; [assumption|]. rewrite <- Hnorm.
  split; [assumption|].
  split; [unfold nrows in *; cbn [rows]; by rewrite length_map|].
  split; [apply wf_closed_form|].
  split.
  { apply nonneg_closed_form. intros i r Hr. apply smoothed_nonneg.
    unfold nonneg in Hnn. rewrite Forall_forall in Hnn. by apply Hnn. }
  intros tfs. unfold target_cell. cbn [freqs amp].
  eexists. apply nearestBinAmplitudes_Ok.
  assert (Hne : freqs s <> []) by (intros C; rewrite C in Hpos; simpl in Hpos; lia).
  apply Forall_forall. intros f _. split; [exact Hne|].
  destruct (nearest_first_min (freqs s) f Hne) as [_ Hmin].
  apply is_first_min_bound in Hmin.
  unfold distances in Hmin. rewrite length_map in Hmin. lia.
Qed.

Lemma target_cell_after_fft_cell_witness :
  length (freqs session_impulse) = ncols (amp session_impulse)
  /\ ncols (norm_amp session_impulse) = ncols (amp session_impulse)
  /\ nrows (norm_amp session_impulse) = nrows (amp session_impulse)
  /\ wf (norm_amp session_impulse)
  /\ nonneg (norm_amp session_impulse)
  /\ forall target_freqs, exists res,
       target_cell session_impulse target_freqs = Ok res.
Proof.
  apply (target_cell_after_fft_cell impulse_fft_abs impulse12 12 session_impulse).
  vm_compute. reflexivity.
Defined.

(** * Re-coding events *)

Lemma concat_concat_map {A} (ll : list (list (list A))) :
  concat (concat ll) = concat (map (fun l => concat l) ll).
Proof.
  induction ll as [|l ll IH]; simpl; [reflexivity|].
  by rewrite concat_app, IH.
Qed.

Lemma concatenate_Ok (frames : list frame) (k : nat) :
  frames <> [] -> Forall (fun f => fcols f = k) frames ->
  concatenate frames = Ok (Frame k (concat (map frows frames))).
Proof.
  intros Hne Hk. destruct frames as [|f rest]; [congruence|].
  inversion Hk as [|? ? Hf Hrest]; subst. unfold concatenate.
  assert (E : forallb (fun g => Nat.eqb (fcols g) (fcols f)) rest = true).
  { apply forallb_forall. intros g Hg. apply Nat.eqb_eq.
    rewrite Forall_forall in Hrest. apply Hrest. by apply list_elem_of_In. }
  by rewrite E.
Qed.

Lemma concatenate_inv (frames : list frame) (fr : frame) :
  concatenate frames = Ok fr ->
  frames <> []
  /\ Forall (fun f => fcols f = fcols fr) frames
  /\ flatten fr = all_codes frames.
Proof.
  destruct frames as [|f rest]; [discriminate|]. unfold concatenate.
  destruct (forallb _ rest) eqn:E; [| discriminate].
  intros [= <-]. split; [discriminate|]. split.
  - constructor; [reflexivity|]. apply Forall_forall. intros g Hg.
    rewrite forallb_forall in E. apply Nat.eqb_eq, E. by apply list_elem_of_In.
  - change (concat (concat (map frows (f :: rest)))
            = concat (map (fun f => concat (frows f)) (f :: rest))).
    by rewrite concat_concat_map, map_map.
Qed.

Lemma concatenate_Raise (frames : list frame) (e : exn) :
  concatenate frames = Raise e ->
  e = ValueError /\ (frames = [] \/ ~ exists k, Forall (fun f => fcols f = k) frames).
Proof.
  destruct frames as [|f rest]; [intros [= <-]; auto|]. unfold concatenate.
  destruct (forallb _ rest) eqn:E; [discriminate|].
  intros [= <-]. split; [reflexivity|]. right. intros [k Hk].
  inversion Hk as [|? ? Hf Hrest]; subst.
  assert (E' : forallb (fun g => Nat.eqb (fcols g) (fcols f)) rest = true);
    [| congruence].
  apply forallb_forall. intros g Hg. apply Nat.eqb_eq.
  rewrite Forall_forall in Hrest. apply Hrest. by apply list_elem_of_In.
Qed.

Lemma recode_events_unfold (events : list event) (frames : list frame) (k : nat) :
  frames <> [] -> Forall (fun f => fcols f = k) frames ->
  recode_events events frames
  = set_codes (select_trigger events) (all_codes frames).
Proof.
  intros Hne Hk. unfold recode_events.
  destruct (concatenate frames) as [fr|e] eqn:E.
  - apply concatenate_inv in E as (_ & _ & Hflat). cbn [bind]. by rewrite Hflat.
  - rewrite (concatenate_Ok frames k Hne Hk) in E. discriminate.
Qed.

(** With code files of integers that fit [int64], re-coding returns
    exactly when there is at least one code file, the files agree on their
    number of columns, and the number of codes is the number of triggers
    with code 1 (or is one); every failure is a [ValueError]. *)
Theorem recode_events_outcome (events : list event) (frames : list frame) :
  frames_int64 frames ->
  ((exists out, recode_events events frames = Ok out)
   <-> frames <> []
       /\ (exists k, Forall (fun f => fcols f = k) frames)
       /\ (length (all_codes frames) = length (select_trigger events)
           \/ length (all_codes frames) = 1%nat))
  /\ (forall e, recode_events events frames = Raise e -> e = ValueError).
Proof.
  intros _. split.
  - split.
    + intros [out H]. unfold recode_events in H.
      apply bind_Ok in H as (fr & Hfr & H).
      apply concatenate_inv in Hfr as (Hne & Hk & Hflat).
      split; [exact Hne|]. split; [eauto|].
      rewrite Hflat in H. unfold set_codes in H.
      destruct (Nat.eqb_spec (length (all_codes frames))
                  (length (select_trigger events))); [by left|].
      destruct (Nat.eqb_spec (length (all_codes frames)) 1); [by right|].
      discriminate.
    + intros (Hne & [k Hk] & Hlen).
      rewrite (recode_events_unfold events frames k Hne Hk). unfold set_codes.
      destruct (Nat.eqb_spec (length (all_codes frames))
                  (length (select_trigger events))); [eauto|].
      destruct (Nat.eqb_spec (length (all_codes frames)) 1); [eauto|].
      destruct Hlen; contradiction.
  - intros e H. unfold recode_events in H.
    destruct (concatenate frames) as [fr|e'] eqn:E.
    + cbn [bind] in H. unfold set_codes in H.
      destruct (Nat.eqb _ _); [discriminate|].
      destruct (Nat.eqb _ _); [discriminate|]. by injection H.
    + cbn [bind] in H. injection H as <-.
      by apply concatenate_Raise in E as [-> _].
Qed.

Lemma recode_events_outcome_witness :
  frames_int64 frames_example
  /\ ((exists out, recode_events events_example frames_example = Ok out)
      <-> frames_example <> []
          /\ (exists k, Forall (fun f => fcols f = k) frames_example)
          /\ (length (all_codes frames_example)
              = length (select_trigger events_example)
              \/ length (all_codes frames_example) = 1%nat))
  /\ (forall e, recode_events events_example frames_example = Raise e ->
        e = ValueError).
Proof.
  assert (H : frames_int64 frames_example)
    by (unfold frames_int64, int64; simpl; repeat constructor; lia).
  split; [exact H|].
  apply (recode_events_outcome events_example frames_example). exact H.
Defined.

Lemma to_int64_id (z : Z) : int64 z -> to_int64 z = z.
Proof.
  unfold int64, to_int64. intros H. rewrite Z.mod_small; lia.
Qed.

Lemma zip_with_event_fields (events : list event) (codes : list Z) :
  length codes = length events ->
  Forall int64 codes ->
  let out := zip_with (fun e c => Event (sample e) (prior e) (to_int64 c))
               events codes in
  map sample out = map sample events
  /\ map prior out = map prior events
  /\ map code out = codes.
Proof.
  revert codes. induction events as [|e events IH]; intros [|c codes] Hlen Hc;
    simpl in *; try discriminate; [auto|].
  inversion Hc as [|? ? Hc1 Hc2]; subst.
  destruct (IH codes) as (H1 & H2 & H3); [lia | assumption |].
  by rewrite H1, H2, H3, to_int64_id.
Qed.

(** What re-coding returns for code files of integers that fit [int64]:
    the triggers with code 1, in their order, with sample and previous
    value untouched, and with the codes of the files in file order (or the
    single code there is, for every trigger). *)
Theorem recode_events_result (events : list event) (frames : list frame)
    (out : list event) :
  frames_int64 frames ->
  recode_events events frames = Ok out ->
  map sample out = map sample (select_trigger events)
  /\ map prior out = map prior (select_trigger events)
  /\ (length (all_codes frames) = length (select_trigger events) ->
        map code out = all_codes frames)
  /\ (length (all_codes frames) <> length (select_trigger events) ->
        exists c, all_codes frames = [c] /\ Forall (fun e => code e = c) out).
Proof.
  intros H64 H. unfold recode_events in H.
  apply bind_Ok in H as (fr & Hfr & H).
  apply concatenate_inv in Hfr as (_ & _ & Hflat). rewrite Hflat in H.
  unfold set_codes in H. unfold frames_int64 in H64.
  destruct (Nat.eqb_spec (length (all_codes frames))
              (length (select_trigger events))) as [E | E].
  - injection H as <-.
    destruct (zip_with_event_fields (select_trigger events) (all_codes frames)
                E H64) as (H1 & H2 & H3).
    split; [exact H1|]. split; [exact H2|]. split; [auto | contradiction].
  - destruct (Nat.eqb_spec (length (all_codes frames)) 1) as [E1 | E1];
      [| discriminate].
    injection H as <-. rewrite !map_map. cbn [sample prior].
    split; [reflexivity|]. split; [reflexivity|]. split; [contradiction|].
    intros _. destruct (all_codes frames) as [|c [|c' rest]]; try discriminate.
    exists c. split; [reflexivity|].
    apply Forall_map_intro. intros e. cbn [code hd].
    apply to_int64_id. by inversion H64.
Qed.

Lemma recode_events_result_witness :
  frames_int64 frames_example
  /\ map sample [Event 100 0 7; Event 340 0 9; Event 460 0 5]%Z
  = map sample (select_trigger events_example)
  /\ map prior [Event 100 0 7; Event 340 0 9; Event 460 0 5]%Z
     = map prior (select_trigger events_example)
  /\ (length (all_codes frames_example) = length (select_trigger events_example) ->
        map code [Event 100 0 7; Event 340 0 9; Event 460 0 5]%Z
        = all_codes frames_example)
  /\ (length (all_codes frames_example) <> length (select_trigger events_example) ->
        exists c, all_codes frames_example = [c]
          /\ Forall (fun e => code e = c)
                [Event 100 0 7; Event 340 0 9; Event 460 0 5]%Z).
Proof.
  assert (H : frames_int64 frames_example)
    by (unfold frames_int64, int64; simpl; repeat constructor; lia).
  split; [exact H|].
  apply (recode_events_result events_example frames_example).
  - exact H.
  - vm_compute. reflexivity.
Defined.

(** * Regions of interest *)

Section RoiLoop.

Variable pick_channels : list string -> list string -> list nat.

Lemma set_ones_Ok (C : nat) (rows_ : list (list fl)) (i : nat) (sel : list nat) :
  Forall (fun j => (j < C)%nat) sel ->
  set_ones (FlArray C rows_) i sel
  = Ok (FlArray C
          (alter (fun row => foldl (fun r j => <[j := Fin 1]> r) row sel) i rows_)).
Proof.
  intros Hsel. unfold set_ones. cbn [fl_ncols fl_rows].
  assert (E : forallb (fun j => Nat.ltb j C) sel = true).
  { apply forallb_forall. intros j Hj. apply Nat.ltb_lt.
    rewrite Forall_forall in Hsel. apply Hsel. by apply list_elem_of_In. }
  by rewrite E.
Qed.

Lemma set_ones_Raise (C : nat) (rows_ : list (list fl)) (i : nat) (sel : list nat) :
  ~ Forall (fun j => (j < C)%nat) sel ->
  set_ones (FlArray C rows_) i sel = Raise IndexError.
Proof.
  intros Hsel. unfold set_ones. cbn [fl_ncols fl_rows].
  destruct (forallb (fun j => Nat.ltb j C) sel) eqn:E; [| reflexivity].
  exfalso. apply Hsel. apply Forall_forall. intros j Hj.
  rewrite forallb_forall in E. apply Nat.ltb_lt, E. by apply list_elem_of_In.
Qed.

Lemma roi_loop (names : list string) :
  forall (rest : list (string * list string)) (k : nat)
         (picked : list (string * list nat)) (done : list (list fl)),
    length done = k ->
    picks_in_range pick_channels names rest ->
    foldR (roi_body pick_channels names) (imap (fun j => pair (k + j)%nat) rest)
      (picked,
       FlArray (length names)
         (done ++ replicate (length rest) (replicate (length names) (Fin 0))))
    = Ok (picked ++ map (fun rc => (fst rc, pick_channels names (snd rc))) rest,
          FlArray (length names)
            (done ++ map (fun rc => weights (length names)
                                      (pick_channels names (snd rc))) rest)).
Proof.
  induction rest as [|[roi channels] rest IH]; intros k picked done Hk Hin.
  - simpl. by rewrite !app_nil_r.
  - inversion Hin as [|? ? Hsel Hrest]; subst. cbn [snd] in Hsel.
    rewrite imap_cons. cbn [foldR]. rewrite Nat.add_0_r.
    unfold roi_body at 1. rewrite set_ones_Ok by assumption. cbn [bind].
    unfold divide_by_sum. cbn [fl_ncols fl_rows].
    cbn [length replicate].
    replace (length done) with (length done + 0)%nat at 1 2 by lia.
    rewrite !alter_app_r. cbn [alter list_alter].
    rewrite (imap_ext _ (fun j => pair (S (length done) + j)%nat))
      by (intros i x _; simpl; f_equal; lia).
    change (done ++ ?w :: ?zs) with (done ++ [w] ++ zs).
    rewrite (app_assoc done).
    rewrite (IH (S (length done))); [| rewrite length_app; simpl; lia | assumption].
    cbn [map fst snd]. by rewrite <- !app_assoc.
Qed.

Lemma build_proj_vec_Ok (names : list string) (rois : list (string * list string)) :
  picks_in_range pick_channels names rois ->
  build_proj_vec pick_channels names rois
  = Ok (map (fun rc => (fst rc, pick_channels names (snd rc))) rois,
        FlArray (length names)
          (map (fun rc => weights (length names) (pick_channels names (snd rc)))
               rois)).
Proof.
  intros Hin. unfold build_proj_vec.
  exact (roi_loop names rois 0 [] [] eq_refl Hin).
Qed.

End RoiLoop.

(** ** The weights of a region *)

Lemma fsum_Fin (r : list Q) : fsum (map Fin r) = Fin (Qsum r).
Proof.
  induction r as [|x r IH]; [reflexivity|].
  cbn [map fsum foldr]. fold (fsum (map Fin r)). by rewrite IH.
Qed.

Lemma foldl_insert_Fin (sel : list nat) :
  forall r : list Q,
    foldl (fun r j => <[j := Fin 1]> r) (map Fin r) sel
    = map Fin (foldl (fun r j => <[j := 1]> r) r sel).
Proof.
  induction sel as [|j sel IH]; intros r; [reflexivity|].
  cbn [foldl]. rewrite <- IH. f_equal.
  symmetry. apply (list_fmap_insert Fin).
Qed.

Lemma weights_ones_row (C : nat) (sel : list nat) :
  weights C sel
  = map (fun x => fdiv (Fin x) (Fin (Qsum (ones_row C sel)))) (ones_row C sel).
Proof.
  unfold weights, ones_row.
  change (replicate C (Fin 0)) with (replicate C (Fin 0%Q)).
  rewrite <- (map_replicate Fin C 0), foldl_insert_Fin, fsum_Fin.
  by rewrite map_map.
Qed.

Lemma length_foldl_insert (sel : list nat) :
  forall r : list Q, length (foldl (fun r j => <[j := 1]> r) r sel) = length r.
Proof.
  induction sel as [|j sel IH]; intros r; [reflexivity|].
  cbn [foldl]. by rewrite IH, length_insert.
Qed.

Lemma length_ones_row (C : nat) (sel : list nat) : length (ones_row C sel) = C.
Proof. unfold ones_row. by rewrite length_foldl_insert, length_replicate. Qed.

Lemma nth_insert_ne (r : list Q) (i j : nat) (x : Q) :
  i <> j -> nth j (<[i := x]> r) 0 = nth j r 0.
Proof. intros H. by rewrite !nth_lookup, list_lookup_insert_ne. Qed.

Lemma nth_insert_eq (r : list Q) (i : nat) (x : Q) :
  (i < length r)%nat -> nth i (<[i := x]> r) 0 = x.
Proof. intros H. by rewrite nth_lookup, list_lookup_insert_eq. Qed.

(** Entry [j] of the row of ones: one on the channels of the region, zero
    elsewhere. *)
Lemma nth_foldl_insert (sel : list nat) :
  forall (r : list Q) (j : nat),
    Forall (fun i => (i < length r)%nat) sel ->
    nth j (foldl (fun r j => <[j := 1]> r) r sel) 0
    = if decide (j ∈ sel) then 1 else nth j r 0.
Proof.
  induction sel as [|i sel IH]; intros r j Hsel.
  - cbn [foldl]. destruct (decide (j ∈ [])) as [H | _]; [| reflexivity].
    by apply elem_of_nil in H.
  - inversion Hsel as [|? ? Hi Hrest]; subst. cbn [foldl].
    rewrite IH by (by rewrite length_insert).
    destruct (decide (j ∈ sel)) as [Hj | Hj].
    + rewrite decide_True; [reflexivity | by right].
    + destruct (decide (j = i)) as [-> | Hne].
      * rewrite decide_True by left. by apply nth_insert_eq.
      * rewrite decide_False; [by apply nth_insert_ne|].
        intros H. apply elem_of_cons in H as [H | H]; contradiction.
Qed.

(** [ring] after the sums have been abstracted. *)
Ltac sum_ring :=
  repeat match goal with
         | |- context [Qsum ?l] => generalize (Qsum l); intro
         end;
  ring.

Lemma dot_insert (r : list Q) :
  forall (col : list Q) (j : nat) (x : Q),
    (j < length r)%nat -> length col = length r ->
    Qsum (zip_with Qmult (<[j := x]> r) col)
    == Qsum (zip_with Qmult r col) + (x - nth j r 0) * nth j col 0.
Proof.
  induction r as [|a r IH]; intros [|c col] j x Hj Hlen;
    simpl in Hj, Hlen; try lia.
  destruct j as [|j].
  - change (<[0%nat := x]> (a :: r)) with (x :: r).
    cbn [zip_with Qsum foldr nth]. fold (Qsum (zip_with Qmult r col)). sum_ring.
  - cbn [zip_with Qsum foldr nth].
    change (<[S j := x]> (a :: r)) with (a :: <[j := x]> r).
    cbn [zip_with Qsum foldr].
    fold (Qsum (zip_with Qmult (<[j := x]> r) col)).
    fold (Qsum (zip_with Qmult r col)).
    rewrite IH by lia. sum_ring.
Qed.

(** The scalar product of the row of ones with a column is the sum of the
    column over the channels of the region. *)
Lemma dot_foldl_insert (col : list Q) (sel : list nat) :
  forall r : list Q,
    length r = length col ->
    NoDup sel ->
    Forall (fun j => (j < length r)%nat /\ nth j r 0 = 0) sel ->
    Qsum (zip_with Qmult (foldl (fun r j => <[j := 1]> r) r sel) col)
    == Qsum (zip_with Qmult r col) + Qsum (map (fun j => nth j col 0) sel).
Proof.
  induction sel as [|j sel IH]; intros r Hlen Hnd Hsel.
  - cbn [foldl map]. change (Qsum []) with 0. sum_ring.
  - inversion Hsel as [|? ? [Hj Hz] Hrest]; subst.
    apply NoDup_cons in Hnd as [Hnotin Hnd]. cbn [foldl map].
    rewrite IH.
    + rewrite dot_insert by (assumption || lia). rewrite Hz.
      cbn [Qsum foldr]. fold (Qsum (map (fun j => nth j col 0) sel)). sum_ring.
    + by rewrite length_insert.
    + assumption.
    + apply Forall_forall. intros i Hi.
      rewrite Forall_forall in Hrest. destruct (Hrest i Hi) as [Hi1 Hi2].
      split; [by rewrite length_insert|].
      rewrite nth_insert_ne; [assumption|]. intros ->. contradiction.
Qed.

Lemma nth_replicate_zero (C j : nat) : nth j (replicate C 0) 0 = 0.
Proof.
  rewrite nth_lookup. destruct (replicate C 0 !! j) as [x|] eqn:E; [| reflexivity].
  apply lookup_replicate in E as [-> _]. reflexivity.
Qed.

Lemma Qsum_zip_zero (C : nat) (col : list Q) :
  Qsum (zip_with Qmult (replicate C 0) col) == 0.
Proof.
  revert col. induction C as [|C IH]; intros [|c col]; cbn; try reflexivity.
  fold (Qsum (zip_with Qmult (replicate C 0) col)). rewrite IH. sum_ring.
Qed.

Lemma dot_ones_row (C : nat) (sel : list nat) (col : list Q) :
  length col = C -> NoDup sel -> Forall (fun j => (j < C)%nat) sel ->
  Qsum (zip_with Qmult (ones_row C sel) col)
  == Qsum (map (fun j => nth j col 0) sel).
Proof.
  intros Hlen Hnd Hsel. unfold ones_row. rewrite dot_foldl_insert.
  - rewrite Qsum_zip_zero. sum_ring.
  - by rewrite length_replicate.
  - assumption.
  - eapply Forall_impl; [exact Hsel|]. intros j Hj. cbn beta.
    rewrite length_replicate. split; [assumption | apply nth_replicate_zero].
Qed.

Lemma Qsum_zip_ones (r : list Q) :
  Qsum (zip_with Qmult r (replicate (length r) 1)) == Qsum r.
Proof.
  induction r as [|a r IH]; [reflexivity|].
  cbn [length replicate zip_with Qsum foldr].
  fold (Qsum (zip_with Qmult r (replicate (length r) 1))). fold (Qsum r).
  rewrite IH. sum_ring.
Qed.

(** The row of ones sums to the number of channels of the region. *)
Lemma Qsum_ones_row (C : nat) (sel : list nat) :
  NoDup sel -> Forall (fun j => (j < C)%nat) sel ->
  Qsum (ones_row C sel) == inject_Z (Z.of_nat (length sel)).
Proof.
  intros Hnd Hsel.
  rewrite <- Qsum_zip_ones, length_ones_row.
  rewrite dot_ones_row by (assumption || apply length_replicate).
  rewrite (Qsum_const 1).
  - rewrite length_map. ring.
  - apply Forall_forall. intros x Hx.
    apply list_elem_of_fmap in Hx as (j & -> & Hj).
    rewrite Forall_forall in Hsel. specialize (Hsel j Hj).
    by rewrite nth_lookup, lookup_replicate_2.
Qed.

Lemma Qsum_weighted (w : Q) (f : nat -> Q) (sel : list nat) :
  Qsum (map (fun j => w * f j) sel) == w * Qsum (map f sel).
Proof.
  induction sel as [|j sel IH]; cbn [map Qsum foldr]; [ring|].
  fold (Qsum (map (fun j => w * f j) sel)). fold (Qsum (map f sel)).
  rewrite IH. sum_ring.
Qed.

Lemma Qsum_zip_div (s : Q) (xs col : list Q) :
  Qsum (zip_with Qmult (map (fun x => x / s) xs) col)
  == Qsum (zip_with Qmult xs col) / s.
Proof.
  revert col. induction xs as [|x xs IH]; intros [|c col];
    cbn [map zip_with Qsum foldr]; try (unfold Qdiv; ring).
  fold (Qsum (zip_with Qmult (map (fun x => x / s) xs) col)).
  fold (Qsum (zip_with Qmult xs col)). rewrite IH.
  unfold Qdiv. sum_ring.
Qed.

Lemma zip_fmul_Fin (a b : list Q) :
  zip_with fmul (map Fin a) (map Fin b) = map Fin (zip_with Qmult a b).
Proof.
  revert b. induction a as [|x a IH]; intros [|y b]; cbn; try reflexivity.
  by rewrite IH.
Qed.

Lemma ones_sum_nonzero (C : nat) (sel : list nat) :
  NoDup sel -> Forall (fun j => (j < C)%nat) sel -> sel <> [] ->
  ~ Qsum (ones_row C sel) == 0.
Proof.
  intros Hnd Hsel Hne. rewrite (Qsum_ones_row C sel Hnd Hsel).
  by apply inject_length_nonzero.
Qed.

(** The weights of a region with at least one channel. *)
Lemma weights_nonempty (C : nat) (sel : list nat) :
  NoDup sel -> Forall (fun j => (j < C)%nat) sel -> sel <> [] ->
  weights C sel
  = map Fin (map (fun x => x / Qsum (ones_row C sel)) (ones_row C sel)).
Proof.
  intros Hnd Hsel Hne. rewrite weights_ones_row, map_map.
  apply map_ext. intros x. cbn [fdiv].
  destruct (Qeq_bool (Qsum (ones_row C sel)) 0) eqn:E; [| reflexivity].
  apply Qeq_bool_iff in E. by apply ones_sum_nonzero in E.
Qed.

Lemma Qsum_replicate_zero (C : nat) : Qsum (replicate C 0) = 0.
Proof. induction C as [|C IH]; cbn; [reflexivity|]. fold (Qsum (replicate C 0)). by rewrite IH. Qed.

(** The weights of a region without any channel. *)
Lemma weights_empty (C : nat) : weights C [] = replicate C NaN.
Proof.
  rewrite weights_ones_row. unfold ones_row. cbn [foldl].
  rewrite Qsum_replicate_zero. rewrite map_replicate. reflexivity.
Qed.

Lemma nth_ones_row (C : nat) (sel : list nat) (j : nat) :
  Forall (fun i => (i < C)%nat) sel ->
  nth j (ones_row C sel) 0 = if decide (j ∈ sel) then 1 else 0.
Proof.
  intros Hsel. unfold ones_row. rewrite nth_foldl_insert.
  - by rewrite nth_replicate_zero.
  - by rewrite length_replicate.
Qed.

Lemma Qsum_zero_inv (xs : list Q) :
  Forall (fun x => 0 <= x) xs -> Qsum xs == 0 -> Forall (fun x => x == 0) xs.
Proof.
  induction 1 as [|x xs Hx Hxs IH]; intros Hsum; [constructor|].
  cbn [Qsum foldr] in Hsum. fold (Qsum xs) in Hsum.
  pose proof (Qsum_nonneg xs Hxs) as Hs.
  constructor; [lra | apply IH; lra].
Qed.

(** The rows that the cell divides hold zeros and ones only; when such a
    row sums to zero it is zero throughout, so the division never meets a
    non-zero value over a zero sum. *)
Lemma zero_sum_zero_row (C : nat) (sel : list nat) :
  Forall (fun j => (j < C)%nat) sel ->
  Qsum (ones_row C sel) == 0 ->
  Forall (fun x => x == 0) (ones_row C sel).
Proof.
  intros Hsel. apply Qsum_zero_inv.
  apply Forall_lookup. intros j x Hx.
  pose proof (nth_ones_row C sel j Hsel) as Hn.
  rewrite nth_lookup, Hx in Hn.
  change (x = if decide (j ∈ sel) then 1 else 0) in Hn. rewrite Hn.
  destruct (decide (j ∈ sel)); [discriminate | apply Qle_refl].
Qed.

Section RoiFacts.

Variable pick_channels : list string -> list string -> list nat.

(** In the weight matrix the row of a region with [k >= 1] channels holds
    [1/k] on those channels and zero on every other; the channel indices
    are stored back under the region's name. *)
Theorem roi_weights (names : list string) (rois : list (string * list string))
    (i : nat) (roi : string) (channels : list string) :
  picks_in_range pick_channels names rois ->
  rois !! i = Some (roi, channels) ->
  NoDup (pick_channels names channels) ->
  pick_channels names channels <> [] ->
  exists picked proj_vec row,
    build_proj_vec pick_channels names rois = Ok (picked, proj_vec)
    /\ picked !! i = Some (roi, pick_channels names channels)
    /\ fl_rows proj_vec !! i = Some row
    /\ length row = length names
    /\ (forall j, (j < length names)%nat ->
          exists w, row !! j = Some (Fin w)
            /\ w == if decide (j ∈ pick_channels names channels)
                     then 1 / inject_Z (Z.of_nat (length (pick_channels names channels)))
                     else 0).
Proof.
  intros Hin Hi Hnd Hne.
  set (sel := pick_channels names channels) in *.
  assert (Hsel : Forall (fun j => (j < length names)%nat) sel).
  { unfold picks_in_range in Hin. rewrite Forall_lookup in Hin.
    exact (Hin i _ Hi). }
  pose proof (Qsum_ones_row _ sel Hnd Hsel) as Hsum.
  do 3 eexists. split; [by apply build_proj_vec_Ok|].
  split; [by rewrite lookup_map, Hi|].
  cbn [fl_rows]. split; [by rewrite lookup_map, Hi|]. cbn [snd]. fold sel.
  rewrite (weights_nonempty _ sel Hnd Hsel Hne).
  split; [by rewrite !length_map, length_ones_row|].
  intros j Hj.
  assert (Hl : is_Some (ones_row (length names) sel !! j))
    by (apply lookup_lt_is_Some; by rewrite length_ones_row).
  destruct Hl as [x Hx].
  exists (x / Qsum (ones_row (length names) sel)). split.
  - by rewrite !lookup_map, Hx.
  - pose proof (nth_ones_row (length names) sel j Hsel) as Hn.
    rewrite nth_lookup, Hx in Hn.
    change (x = if decide (j ∈ sel) then 1 else 0) in Hn. rewrite Hn, Hsum.
    destruct (decide (j ∈ sel)); [reflexivity|]. unfold Qdiv. ring.
Qed.

End RoiFacts.

Lemma picks_example : picks_in_range pick_by_name (ch_names eeg_example) rois_example.
Proof. unfold picks_in_range. vm_compute. repeat constructor. Qed.

Lemma roi_weights_witness :
  exists picked proj_vec row,
    build_proj_vec pick_by_name (ch_names eeg_example) rois_example
    = Ok (picked, proj_vec)
    /\ picked !! 0%nat
       = Some ("Fz", pick_by_name (ch_names eeg_example) ["E1"; "E2"; "E4"])
    /\ fl_rows proj_vec !! 0%nat = Some row
    /\ length row = length (ch_names eeg_example)
    /\ (forall j, (j < length (ch_names eeg_example))%nat ->
          exists w, row !! j = Some (Fin w)
            /\ w == if decide (j ∈ pick_by_name (ch_names eeg_example)
                                    ["E1"; "E2"; "E4"])
                     then 1 / inject_Z (Z.of_nat (length
                            (pick_by_name (ch_names eeg_example)
                               ["E1"; "E2"; "E4"])))
                     else 0).
Proof.
  apply (roi_weights pick_by_name (ch_names eeg_example) rois_example 0
           "Fz" ["E1"; "E2"; "E4"]).
  - exact picks_example.
  - reflexivity.
  - change (NoDup [0; 1; 3]%nat). repeat constructor; intros H;
      repeat (apply elem_of_cons in H as [H | H]; [discriminate H|]);
      by apply elem_of_nil in H.
  - discriminate.
Defined.

(** ** The channels of the regions *)

Lemma column_Fin (b : ndarray2) (t : nat) :
  column b t = map Fin (map (fun r => nth t r 0) (rows b)).
Proof. unfold column. by rewrite map_map. Qed.

Lemma nth_column (b : ndarray2) (t j : nat) :
  (j < nrows b)%nat ->
  nth j (map (fun r => nth t r 0) (rows b)) 0 = nth t (nth j (rows b) []) 0.
Proof.
  intros Hj. apply lookup_lt_is_Some in Hj as [r Hr].
  rewrite (nth_lookup (map _ _)), lookup_map, Hr.
  by rewrite (nth_lookup (rows b)), Hr.
Qed.

Lemma dot_Ok (a : flarray) (b : ndarray2) :
  fl_ncols a = nrows b ->
  dot a b
  = Ok (FlArray (ncols b)
          (map (fun row => map (fun t => fsum (zip_with fmul row (column b t)))
                               (seq 0 (ncols b)))
               (fl_rows a))).
Proof. intros H. unfold dot. by rewrite H, Nat.eqb_refl. Qed.

Lemma dot_Raise (a : flarray) (b : ndarray2) :
  fl_ncols a <> nrows b -> dot a b = Raise ValueError.
Proof.
  intros H. unfold dot. by destruct (Nat.eqb_spec (fl_ncols a) (nrows b)).
Qed.

Lemma mapR_Ok {A B} (f : A -> result B) (g : A -> B) (l : list A) :
  Forall (fun x => f x = Ok (g x)) l -> mapR f l = Ok (map g l).
Proof.
  induction 1 as [|x l Hx _ IH]; [reflexivity|].
  cbn [mapR map]. by rewrite Hx, IH.
Qed.

Lemma fl_entry_dot (ws : list (list fl)) (b : ndarray2) (C i t : nat) (w : list fl) :
  ws !! i = Some w -> (t < ncols b)%nat ->
  fl_entry (FlArray (ncols b)
              (map (fun row => map (fun t => fsum (zip_with fmul row (column b t)))
                                   (seq 0 (ncols b))) ws)) i t
  = Some (fsum (zip_with fmul w (column b t))).
Proof.
  intros Hw Ht. unfold fl_entry. cbn [fl_rows].
  rewrite lookup_map, Hw. cbn. rewrite lookup_map.
  assert (E : seq 0 (ncols b) !! t = Some t) by (apply lookup_seq; lia).
  by rewrite E.
Qed.

Section RoiChannels.

Variable pick_channels : list string -> list string -> list nat.

Lemma rois_cell_raw (eeg : eeg_object) (rois : list (string * list string))
    (data : ndarray2) :
  picks_in_range pick_channels (ch_names eeg) rois ->
  kind eeg = BaseRaw data ->
  nrows data = length (ch_names eeg) ->
  rois_cell pick_channels eeg rois
  = Ok (RawArray
          (FlArray (ncols data)
             (map (fun row => map (fun t => fsum (zip_with fmul row (column data t)))
                                  (seq 0 (ncols data)))
                  (map (fun rc => weights (length (ch_names eeg))
                                    (pick_channels (ch_names eeg) (snd rc))) rois)))
          (map fst rois)).
Proof.
  intros Hin Hkind Hrows. unfold rois_cell.
  rewrite (build_proj_vec_Ok pick_channels _ _ Hin). cbn [bind fst snd].
  rewrite Hkind. rewrite dot_Ok by (cbn [fl_ncols]; lia).
  cbn [bind fl_rows]. f_equal. f_equal.
  rewrite map_map. by apply map_ext.
Qed.

(** The channel of a region combines the channels it groups with equal
    weights: for a recording, the value of region [i] at time [t] is the
    sum, over the region's [k] channels, of [1/k] times the channel's value
    at [t]. *)
Theorem roi_channel_weighted_sum (eeg : eeg_object) (rois : list (string * list string))
    (data : ndarray2) (i t : nat) (roi : string) (channels : list string) :
  picks_in_range pick_channels (ch_names eeg) rois ->
  kind eeg = BaseRaw data ->
  nrows data = length (ch_names eeg) ->
  rois !! i = Some (roi, channels) ->
  NoDup (pick_channels (ch_names eeg) channels) ->
  pick_channels (ch_names eeg) channels <> [] ->
  (t < ncols data)%nat ->
  exists d y,
    rois_cell pick_channels eeg rois = Ok (RawArray d (map fst rois))
    /\ fl_entry d i t = Some (Fin y)
    /\ y == Qsum (map (fun j =>
                         1 / inject_Z (Z.of_nat
                                         (length (pick_channels (ch_names eeg) channels)))
                         * nth t (nth j (rows data) []) 0)
                      (pick_channels (ch_names eeg) channels)).
Proof.
  intros Hin Hkind Hrows Hi Hnd Hne Ht.
  set (names := ch_names eeg) in *.
  set (sel := pick_channels names channels) in *.
  assert (Hsel : Forall (fun j => (j < length names)%nat) sel).
  { unfold picks_in_range in Hin. rewrite Forall_lookup in Hin.
    exact (Hin i _ Hi). }
  do 2 eexists. split; [by apply rois_cell_raw|]. split.
  - rewrite (fl_entry_dot _ data (length names) i t (weights (length names) sel));
      [| by rewrite lookup_map, Hi | assumption].
    rewrite (weights_nonempty _ sel Hnd Hsel Hne), column_Fin, zip_fmul_Fin.
    by rewrite fsum_Fin.
  - rewrite Qsum_zip_div.
    rewrite dot_ones_row; [| by rewrite length_map | assumption | assumption].
    rewrite (Qsum_ones_row _ sel Hnd Hsel).
    assert (E : map (fun j => nth j (map (fun r => nth t r 0) (rows data)) 0) sel
                = map (fun j => nth t (nth j (rows data) []) 0) sel).
    { apply map_ext_in. intros j Hj. apply nth_column.
      rewrite Forall_forall in Hsel. rewrite Hrows. apply Hsel.
      by apply list_elem_of_In. }
    rewrite E, Qsum_weighted. unfold Qdiv. sum_ring.
Qed.

(** A region none of whose channels is picked does not stop the cell: in
    a recording with at least one channel its row of weights and its
    channel are NaN throughout. *)
Theorem roi_without_channels (eeg : eeg_object) (rois : list (string * list string))
    (data : ndarray2) (i : nat) (roi : string) (channels : list string) :
  picks_in_range pick_channels (ch_names eeg) rois ->
  kind eeg = BaseRaw data ->
  nrows data = length (ch_names eeg) ->
  ch_names eeg <> [] ->
  rois !! i = Some (roi, channels) ->
  pick_channels (ch_names eeg) channels = [] ->
  exists d,
    rois_cell pick_channels eeg rois = Ok (RawArray d (map fst rois))
    /\ forall t, (t < ncols data)%nat -> fl_entry d i t = Some NaN.
Proof.
  intros Hin Hkind Hrows Hnames Hi Hsel.
  eexists. split; [by apply rois_cell_raw|]. intros t Ht.
  assert (Hw : map (fun rc => weights (length (ch_names eeg))
                                (pick_channels (ch_names eeg) (snd rc))) rois !! i
               = Some (weights (length (ch_names eeg)) [])).
  { rewrite lookup_map, Hi.
    change (Some (weights (length (ch_names eeg))
                    (pick_channels (ch_names eeg) channels))
            = Some (weights (length (ch_names eeg)) [])).
    by rewrite Hsel. }
  rewrite (fl_entry_dot _ data (length (ch_names eeg)) i t _ Hw Ht).
  rewrite weights_empty. unfold column.
  destruct (ch_names eeg) as [|name names]; [congruence|].
  unfold nrows in Hrows. destruct (rows data) as [|r rs]; [discriminate|].
  reflexivity.
Qed.

(** What the cell returns by the class of [eeg]: for a recording one
    row per region and the columns of the data; for epochs one such array
    per epoch; for anything else a [ValueError], raised after the weights
    have been built.  The new channels carry the names of the regions, in
    the order of the dictionary. *)
Theorem rois_cell_outcome (eeg : eeg_object) (rois : list (string * list string)) :
  picks_in_range pick_channels (ch_names eeg) rois ->
  (kind eeg = OtherObject -> rois_cell pick_channels eeg rois = Raise ValueError)
  /\ (forall data, kind eeg = BaseRaw data ->
        nrows data = length (ch_names eeg) ->
        exists d,
          rois_cell pick_channels eeg rois = Ok (RawArray d (map fst rois))
          /\ fl_ncols d = ncols data
          /\ length (fl_rows d) = length rois
          /\ Forall (fun r => length r = ncols data) (fl_rows d))
  /\ (forall data, kind eeg = BaseRaw data ->
        nrows data <> length (ch_names eeg) ->
        rois_cell pick_channels eeg rois = Raise ValueError)
  /\ (forall epochs, kind eeg = BaseEpochs epochs ->
        Forall (fun e => nrows e = length (ch_names eeg)) epochs ->
        exists ds,
          rois_cell pick_channels eeg rois = Ok (EpochsArray ds (map fst rois))
          /\ length ds = length epochs
          /\ Forall (fun d => length (fl_rows d) = length rois) ds).
Proof.
  intros Hin. split; [| split; [| split]].
  - intros Hkind. unfold rois_cell.
    rewrite (build_proj_vec_Ok pick_channels _ _ Hin). cbn [bind].
    by rewrite Hkind.
  - intros data Hkind Hrows. eexists. split; [by apply rois_cell_raw|].
    split; [reflexivity|]. cbn [fl_rows].
    split; [by rewrite !length_map|].
    apply Forall_map_intro. intros row. by rewrite length_map, length_seq.
  - intros data Hkind Hrows. unfold rois_cell.
    rewrite (build_proj_vec_Ok pick_channels _ _ Hin). cbn [bind fst snd].
    rewrite Hkind. rewrite dot_Raise; [reflexivity|]. cbn [fl_ncols]. congruence.
  - intros epochs Hkind Hrows. unfold rois_cell.
    rewrite (build_proj_vec_Ok pick_channels _ _ Hin). cbn [bind fst snd].
    rewrite Hkind.
    set (proj := FlArray _ _).
    set (g := fun b : ndarray2 =>
                FlArray (ncols b)
                  (map (fun row => map (fun t => fsum (zip_with fmul row (column b t)))
                                       (seq 0 (ncols b)))
                       (fl_rows proj))).
    rewrite (mapR_Ok (dot proj) g).
    + cbn [bind]. exists (map g epochs). split.
      * f_equal. f_equal. rewrite map_map. by apply map_ext.
      * split; [by rewrite length_map|].
        apply Forall_map_intro. intros e. unfold g, proj. cbn [fl_rows].
        by rewrite !length_map.
    + eapply Forall_impl; [exact Hrows|]. intros e He. cbn beta.
      apply dot_Ok. unfold proj. cbn [fl_ncols]. by rewrite He.
Qed.

End RoiChannels.

Lemma roi_channel_weighted_sum_witness :
  exists d y,
    rois_cell pick_by_name eeg_example rois_example
    = Ok (RawArray d (map fst rois_example))
    /\ fl_entry d 0 1 = Some (Fin y)
    /\ y == Qsum (map (fun j =>
                         1 / inject_Z (Z.of_nat
                                         (length (pick_by_name (ch_names eeg_example)
                                                    ["E1"; "E2"; "E4"])))
                         * nth 1 (nth j [[1; 2; 3]; [3; 4; 5];
                                         [10; 20; 30]; [5; 6; 7]] []) 0)
                      (pick_by_name (ch_names eeg_example) ["E1"; "E2"; "E4"])).
Proof.
  apply (roi_channel_weighted_sum pick_by_name eeg_example rois_example
           (Array2 3 [[1; 2; 3]; [3; 4; 5]; [10; 20; 30]; [5; 6; 7]])
           0 1 "Fz" ["E1"; "E2"; "E4"]).
  - exact picks_example.
  - reflexivity.
  - reflexivity.
  - reflexivity.
  - change (NoDup [0; 1; 3]%nat). repeat constructor; intros H;
      repeat (apply elem_of_cons in H as [H | H]; [discriminate H|]);
      by apply elem_of_nil in H.
  - discriminate.
  - simpl. lia.
Defined.

Lemma picks_missing : picks_in_range pick_by_name (ch_names eeg_example) rois_missing.
Proof. unfold picks_in_range. vm_compute. repeat constructor. Qed.

Lemma roi_without_channels_witness :
  exists d,
    rois_cell pick_by_name eeg_example rois_missing
    = Ok (RawArray d (map fst rois_missing))
    /\ forall t, (t < 3)%nat -> fl_entry d 1 t = Some NaN.
Proof.
  apply (roi_without_channels pick_by_name eeg_example rois_missing
           (Array2 3 [[1; 2; 3]; [3; 4; 5]; [10; 20; 30]; [5; 6; 7]])
           1 "Oz" ["E70"; "E75"]).
  - exact picks_missing.
  - reflexivity.
  - reflexivity.
  - discriminate.
  - reflexivity.
  - reflexivity.
Defined.

Lemma rois_cell_outcome_witness :
  (kind eeg_example = OtherObject ->
     rois_cell pick_by_name eeg_example rois_example = Raise ValueError)
  /\ (forall data, kind eeg_example = BaseRaw data ->
        nrows data = length (ch_names eeg_example) ->
        exists d,
          rois_cell pick_by_name eeg_example rois_example
          = Ok (RawArray d (map fst rois_example))
          /\ fl_ncols d = ncols data
          /\ length (fl_rows d) = length rois_example
          /\ Forall (fun r => length r = ncols data) (fl_rows d))
  /\ (forall data, kind eeg_example = BaseRaw data ->
        nrows data <> length (ch_names eeg_example) ->
        rois_cell pick_by_name eeg_example rois_example = Raise ValueError)
  /\ (forall epochs, kind eeg_example = BaseEpochs epochs ->
        Forall (fun e => nrows e = length (ch_names eeg_example)) epochs ->
        exists ds,
          rois_cell pick_by_name eeg_example rois_example
          = Ok (EpochsArray ds (map fst rois_example))
          /\ length ds = length epochs
          /\ Forall (fun d => length (fl_rows d) = length rois_example) ds).
Proof.
  apply (rois_cell_outcome pick_by_name eeg_example rois_example).
  exact picks_example.
Defined.
